(** * generate_readme.py: a shallow embedding and its specification

    The script scans a directory for markdown files, reads the YAML front
    matter of each one with three regular expressions, groups the plans by
    category and writes README.md.

    Text is modelled as [string], the sequence of the bytes of its UTF-8
    encoding.  Character classes ([\s], [\w], [str.strip], [str.lower],
    [str.splitlines]) are Python's on the code points below 128 only.
    Beyond them Python has further white space (U+0085, U+00A0, U+1680,
    U+2000 to U+200A, U+2028, U+2029, U+202F, U+205F, U+3000), further
    line boundaries (U+0085, U+2028, U+2029), and the letters, digits and
    case mappings of Unicode; the model has none of these.  So a property
    that depends on how a text is read by these classes is stated for a
    text that is ASCII ([Str.isascii], Python's [str.isascii]), where the
    model is Python's behaviour.  The properties of the loop over the
    files, of the grouping and of the document hold for whatever the
    parser returns and carry no such assumption.  Comparison of strings by
    bytes is comparison by code point on every UTF-8 text. *)

From Stdlib Require Import Ascii String.
From stdpp Require Import gmap strings list fin_maps sorting pretty.

(** ** Characters *)

Module Char.

Definition code (a : ascii) : nat := nat_of_ascii a.

Definition LF : ascii := ascii_of_nat 10.
Definition CR : ascii := ascii_of_nat 13.
Definition DQUOTE : ascii := ascii_of_nat 34.
Definition SQUOTE : ascii := ascii_of_nat 39.
Definition HYPHEN : ascii := ascii_of_nat 45.
Definition COLON : ascii := ascii_of_nat 58.

Definition between (lo hi n : nat) : bool := (lo <=? n) && (n <=? hi).

(** A code point below 128. *)
Definition isascii (a : ascii) : bool := code a <? 128.

(** [Py_UNICODE_ISSPACE] below 128: TAB, LF, VT, FF, CR, FS, GS, RS, US
    and the space.  Both [\s] and [str.strip()] use it. *)
Definition isspace (a : ascii) : bool :=
  between 9 13 (code a) || between 28 32 (code a).

(** [\w] below 128: letters, digits and the underscore. *)
Definition isword (a : ascii) : bool :=
  between 48 57 (code a) || between 65 90 (code a)
  || (code a =? 95) || between 97 122 (code a).

(** The line boundaries of [str.splitlines] below 128 (CR LF counts as
    one, see [splitlines]). *)
Definition islinebreak (a : ascii) : bool :=
  between 10 13 (code a) || between 28 30 (code a).

Definition lower (a : ascii) : ascii :=
  if between 65 90 (code a) then ascii_of_nat (code a + 32) else a.

End Char.

(** ** Strings *)

Module Str.

Definition LF : string := String Char.LF "".
Definition DQUOTE : string := String Char.DQUOTE "".
Definition SQUOTE : string := String Char.SQUOTE "".

Fixpoint all (p : ascii → bool) (s : string) : bool :=
  match s with
  | "" => true
  | String a s' => p a && all p s'
  end.

Fixpoint map (f : ascii → ascii) (s : string) : string :=
  match s with
  | "" => ""
  | String a s' => String (f a) (map f s')
  end.

(** [s.isascii()] *)
Definition isascii : string → bool := all Char.isascii.

(** [s.lower()], for [s] that is ASCII *)
Definition lower : string → string := map Char.lower.

Definition is_empty (s : string) : bool :=
  match s with "" => true | _ => false end.

(** [s.lstrip()], [s.rstrip()], [s.strip()], for [s] that is ASCII *)
Fixpoint lstrip (s : string) : string :=
  match s with
  | "" => ""
  | String a s' => if Char.isspace a then lstrip s' else s
  end.

Fixpoint rstrip (s : string) : string :=
  match s with
  | "" => ""
  | String a s' =>
      let r := rstrip s' in
      if is_empty r && Char.isspace a then "" else String a r
  end.

Definition strip (s : string) : string := rstrip (lstrip s).

(** [s[i:j]] for [i <= j] *)
Definition slice (i j : nat) (s : string) : string :=
  String.substring i (j - i) s.

Definition startswith (p s : string) : bool := String.prefix p s.

Definition endswith (p s : string) : bool :=
  String.prefix (String.rev p) (String.rev s).

(** [sep.join(ls)] *)
Definition join (sep : string) (ls : list string) : string :=
  String.concat sep ls.

(** [s.splitlines()], for [s] that is ASCII: the lines of [s] without
    their terminators; a terminator at the very end opens no further line.
    [cur] is the line being read, reversed; [None] when no character of it
    was seen. *)
Fixpoint splitlines_go (cur : option string) (s : string) : list string :=
  match s with
  | "" =>
      match cur with
      | Some l => [String.rev l]
      | None => []
      end
  | String a s' =>
      if Char.islinebreak a then
        let rest :=
          match s' with
          | String b s'' =>
              if (Char.code a =? 13) && (Char.code b =? 10)
              then s'' else s'
          | "" => s'
          end in
        String.rev (default "" cur) :: splitlines_go None rest
      else splitlines_go (Some (String a (default "" cur))) s'
  end.

Definition splitlines : string → list string := splitlines_go None.

(** What [open(path, "r")] does to line endings while reading: CR LF and
    a lone CR both arrive as LF. *)
Fixpoint universal_newlines (s : string) : string :=
  match s with
  | "" => ""
  | String a s' =>
      if Char.code a =? 13 then
        String Char.LF
          match s' with
          | String b s'' =>
              if Char.code b =? 10 then universal_newlines s''
              else universal_newlines s'
          | "" => ""
          end
      else String a (universal_newlines s')
  end.

(** [str(n)] for a natural number *)
Definition of_nat (n : nat) : string := pretty n.

(** [sorted(l, key=key)] and [l.sort(key=key)]: a stable sort by [<] on
    the keys.  The result of a stable sort does not depend on the
    algorithm; insertion is the simplest one. *)
Fixpoint insert_by {A} (key : A → string) (x : A) (l : list A) : list A :=
  match l with
  | [] => [x]
  | y :: l' =>
      if String.ltb (key y) (key x) then y :: insert_by key x l'
      else x :: l
  end.

Fixpoint sorted_by {A} (key : A → string) (l : list A) : list A :=
  match l with
  | [] => []
  | x :: l' => insert_by key x (sorted_by key l')
  end.

Definition sorted : list string → list string := sorted_by id.

End Str.

(** ** Regular expressions

    The fragment of Python's [re] the script uses, with the backtracking
    order of the engine: a pattern is a sequence of items; a repetition is
    always over one character class. *)

Module Re.

Inductive charclass :=
| Chr (a : ascii)   (* a literal character *)
| Space             (* \s *)
| Word              (* \w *)
| Dot               (* .  without re.DOTALL: anything but a newline *)
| Any.              (* .  with re.DOTALL *)

Definition accepts (c : charclass) (a : ascii) : bool :=
  match c with
  | Chr b => Ascii.eqb a b
  | Space => Char.isspace a
  | Word => Char.isword a
  | Dot => negb (Ascii.eqb a Char.LF)
  | Any => true
  end.

Inductive item :=
| One (c : charclass)       (* c   *)
| Star (c : charclass)      (* c*  greedy *)
| StarLazy (c : charclass)  (* c*? *)
| Plus (c : charclass)      (* c+  greedy *)
| GroupOpen (g : nat)       (* the opening parenthesis of group g *)
| GroupClose (g : nat)      (* its closing parenthesis *)
| Bol                       (* ^ without re.MULTILINE *)
| Eol.                      (* $ without re.MULTILINE *)

Definition regex := list item.

(** A literal run of characters. *)
Fixpoint lit (s : string) : regex :=
  match s with
  | "" => []
  | String a s' => One (Chr a) :: lit s'
  end.

(** The spans of the groups: where each one opened and closed. *)
Record captures := Captures {
  starts : list (nat * nat);
  ends : list (nat * nat)
}.

Definition no_captures : captures := Captures [] [].

Definition open_group (g pos : nat) (st : captures) : captures :=
  Captures ((g, pos) :: starts st) (ends st).

Definition close_group (g pos : nat) (st : captures) : captures :=
  Captures (starts st) ((g, pos) :: ends st).

Fixpoint assoc (g : nat) (l : list (nat * nat)) : option nat :=
  match l with
  | [] => None
  | (h, p) :: l' => if h =? g then Some p else assoc g l'
  end.

(** The rest of the pattern, as the engine sees it from a repetition:
    position, remaining input, captures so far. *)
Definition cont := nat → string → captures → option captures.

(** [c*]: take one more character when possible, give it back when the
    rest of the pattern fails. *)
Fixpoint star (c : charclass) (k : cont) (pos : nat) (s : string)
    (st : captures) : option captures :=
  match s with
  | String a s' =>
      if accepts c a then
        match star c k (S pos) s' st with
        | Some r => Some r
        | None => k pos s st
        end
      else k pos s st
  | "" => k pos s st
  end.

(** [c*?]: try the rest of the pattern first, take one more character
    when it fails. *)
Fixpoint star_lazy (c : charclass) (k : cont) (pos : nat) (s : string)
    (st : captures) : option captures :=
  match k pos s st with
  | Some r => Some r
  | None =>
      match s with
      | String a s' =>
          if accepts c a then star_lazy c k (S pos) s' st else None
      | "" => None
      end
  end.

Definition at_eol (s : string) : bool :=
  match s with
  | "" => true
  | String a "" => Ascii.eqb a Char.LF
  | _ => false
  end.

Fixpoint run (r : regex) : cont :=
  match r with
  | [] => λ _ _ st, Some st
  | it :: r' =>
      let k := run r' in
      match it with
      | One c => λ pos s st,
          match s with
          | String a s' => if accepts c a then k (S pos) s' st else None
          | "" => None
          end
      | Star c => star c k
      | StarLazy c => star_lazy c k
      | Plus c => λ pos s st,
          match s with
          | String a s' =>
              if accepts c a then star c k (S pos) s' st else None
          | "" => None
          end
      | GroupOpen g => λ pos s st, k pos s (open_group g pos st)
      | GroupClose g => λ pos s st, k pos s (close_group g pos st)
      | Bol => λ pos s st, if pos =? 0 then k pos s st else None
      | Eol => λ pos s st, if at_eol s then k pos s st else None
      end
  end.

(** When the pattern has a match at all, whatever the engine's order. *)
Fixpoint matches (r : regex) (pos : nat) (s : string) : Prop :=
  match r with
  | [] => True
  | One c :: r' =>
      ∃ a s', s = String a s' ∧ accepts c a ∧ matches r' (S pos) s'
  | Star c :: r' | StarLazy c :: r' =>
      ∃ w s', s = w +:+ s' ∧ Str.all (accepts c) w
              ∧ matches r' (pos + String.length w) s'
  | Plus c :: r' =>
      ∃ a w s', s = String a (w +:+ s') ∧ accepts c a
                ∧ Str.all (accepts c) w
                ∧ matches r' (S pos + String.length w) s'
  | GroupOpen _ :: r' | GroupClose _ :: r' => matches r' pos s
  | Bol :: r' => pos = 0 ∧ matches r' pos s
  | Eol :: r' => at_eol s ∧ matches r' pos s
  end.

(** A match object: the subject and the spans of its groups. *)
Record match_object := Match { subject : string; spans : captures }.

(** [re.match(r, s)]: the match of [r] at the start of [s]. *)
Definition match_ (r : regex) (s : string) : option match_object :=
  Match s <$> run r 0 s no_captures.

(** [m.group(g)] for a group that took part in the match. *)
Definition group (m : match_object) (g : nat) : string :=
  match assoc g (starts (spans m)), assoc g (ends (spans m)) with
  | Some i, Some j => Str.slice i j (subject m)
  | _, _ => ""
  end.

End Re.

(** ** The script *)

Definition CATEGORY_ORDER : list string := [
  "Spring & Spring Boot";
  "JVM Internals";
  "Build Tools";
  "Data & Messaging";
  "APIs & Protocols";
  "Observability";
  "Infrastructure";
  "Languages & Paradigms";
  "NewSQL"
].

Definition EXCLUDED_FILES : gset string := {[ "README.md"; "CLAUDE.md" ]}.

Section patterns.
Import Re.

(** [^---\s*\n(.*?\n)---\s*\n] with [re.DOTALL] *)
Definition FRONT_MATTER_RE : regex :=
  [Bol] ++ lit "---" ++ [Star Space; One (Chr Char.LF);
   GroupOpen 1; StarLazy Any; One (Chr Char.LF); GroupClose 1]
  ++ lit "---" ++ [Star Space; One (Chr Char.LF)].

(** [^(\w+)\s*:\s*] *)
Definition KEY_RE : regex :=
  [Bol; GroupOpen 1; Plus Word; GroupClose 1;
   Star Space; One (Chr Char.COLON); Star Space].

(** [^(\w+)\s*:\s*Q(.+)Q$] for a quote character Q *)
Definition QUOTED_RE (q : ascii) : regex :=
  KEY_RE ++ [One (Chr q); GroupOpen 2; Plus Dot; GroupClose 2;
             One (Chr q); Eol].

Definition DOUBLE_QUOTED_RE : regex := QUOTED_RE Char.DQUOTE.
Definition SINGLE_QUOTED_RE : regex := QUOTED_RE Char.SQUOTE.

(** [^(\w+)\s*:\s*(.+)$] *)
Definition BARE_RE : regex :=
  KEY_RE ++ [GroupOpen 2; Plus Dot; GroupClose 2; Eol].
End patterns.

(** The three attempts on one line of the block: the first pattern that
    matches decides. *)
Definition match_line (line : string) : option Re.match_object :=
  match Re.match_ DOUBLE_QUOTED_RE line with
  | Some m => Some m
  | None =>
      match Re.match_ SINGLE_QUOTED_RE line with
      | Some m => Some m
      | None => Re.match_ BARE_RE line
      end
  end.

(** The body of the loop over the lines of the block. *)
Definition parse_line (front_matter : gmap string string) (line : string)
    : gmap string string :=
  match match_line line with
  | Some m => <[Re.group m 1 := Str.strip (Re.group m 2)]> front_matter
  | None => front_matter
  end.

(** [parse_front_matter], on the text read from the file; [None] is
    Python's [None]. *)
Definition parse_front_matter (content : string)
    : option (gmap string string) :=
  match Re.match_ FRONT_MATTER_RE content with
  | None => None
  | Some m => Some (foldl parse_line ∅ (Str.splitlines (Re.group m 1)))
  end.

(** A directory: the name of each file in it and the file's text. *)
Abbreviation directory := (gmap string string).

(** [glob.glob(os.path.join(script_dir, "*.md"))], as file names: the names
    that end in .md and do not start with a dot, in no particular order.
    Every path is [script_dir] followed by the name, so sorting the paths
    is sorting the names, and [os.path.basename] gives the name back. *)
Definition glob_md (dir : directory) : list string :=
  filter (λ name, Str.endswith ".md" name && negb (Str.startswith "." name))
         (map_to_list dir).*1.

(** [f.read()] on a file of the listing *)
Definition read (dir : directory) (filename : string) : string :=
  Str.universal_newlines (default "" (dir !! filename)).

Record entry := Entry {
  title : string;
  description : string;
  filename : string
}.

Global Instance entry_eq_dec : EqDecision entry.
Proof. solve_decision. Defined.

(** What the first loop builds: the [categories] dict and the lines
    printed to [sys.stderr]. *)
Record collected := Collected {
  categories : gmap string (list entry);
  stderr : list string
}.

(** Python's truth value of [fm.get(key)]: [None] and the empty string are
    false. *)
Definition truthy (v : option string) : bool :=
  match v with
  | Some s => negb (Str.is_empty s)
  | None => false
  end.

(** [categories.setdefault(category, []).append(e)] *)
Definition setdefault_append (category : string) (e : entry)
    (cats : gmap string (list entry)) : gmap string (list entry) :=
  <[category := default [] (cats !! category) ++ [e]]> cats.

Definition warn (line : string) (st : collected) : collected :=
  Collected (categories st) (stderr st ++ [line]).

(** One turn of the loop over [md_files]. *)
Definition collect_file (dir : directory) (st : collected) (filename : string)
    : collected :=
  if decide (filename ∈ EXCLUDED_FILES) then st
  else
    match parse_front_matter (read dir filename) with
    | None =>
        warn ("warning: " +:+ filename +:+ " has no front matter, skipping") st
    | Some fm =>
        let title := fm !! "title" in
        let category := fm !! "category" in
        let description := fm !! "description" in
        if negb (forallb truthy [title; category; description]) then
          warn ("warning: " +:+ filename
                +:+ " missing required front matter fields, skipping") st
        else
          Collected
            (setdefault_append (default "" category)
               (Entry (default "" title) (default "" description) filename)
               (categories st))
            (stderr st)
    end.

Definition md_files (dir : directory) : list string :=
  Str.sorted (glob_md dir).

Definition collect (dir : directory) : collected :=
  foldl (collect_file dir) (Collected ∅ []) (md_files dir).

(** [entries.sort(key=lambda e: e["title"].lower())] on every group *)
Definition sort_entries (entries : list entry) : list entry :=
  Str.sorted_by (λ e, Str.lower (title e)) entries.

Definition sort_groups (cats : gmap string (list entry))
    : gmap string (list entry) :=
  sort_entries <$> cats.

(** The categories of the preferred order that are present, then the
    others, sorted. *)
Definition order_categories (cats : gmap string (list entry)) : list string :=
  let ordered_categories :=
    filter (λ cat, cat ∈ dom cats) CATEGORY_ORDER in
  let unknown :=
    Str.sorted (elements (dom cats ∖ list_to_set CATEGORY_ORDER)) in
  ordered_categories ++ unknown.

(** [categories[c]]; every use is at a key of the dict. *)
Definition group_of (cats : gmap string (list entry)) (c : string)
    : list entry :=
  default [] (cats !! c).

Definition count_plans (cats : gmap string (list entry))
    (ordered_categories : list string) : nat :=
  sum_list ((λ c, length (group_of cats c)) <$> ordered_categories).

Definition overview (total : nat) : string :=
  "This repository contains " +:+ Str.of_nat total
  +:+ " self-paced learning plans generated with"
  +:+ " Claude. Each plan follows a phased, project-based format designed for"
  +:+ " working engineers — typically 12–16 weeks of focused study with curated"
  +:+ " resources, hands-on milestones, and progressive complexity. Topics range"
  +:+ " from Spring Boot internals to Kubernetes, Go, and distributed data systems.".

Definition bullet (e : entry) : string :=
  "- [" +:+ title e +:+ "](" +:+ filename e +:+ ")"
  +:+ " — " +:+ description e.

Definition section_lines (cats : gmap string (list entry)) (cat : string)
    : list string :=
  ["";
   "### " +:+ cat;
   ""]
  ++ (bullet <$> group_of cats cat).

Definition closing_paragraph : string :=
  "Pick a plan that matches your current learning goal, work through the"
  +:+ " phases at your own pace, and use the milestones to gauge progress.".

(** The list [lines] at the end of [generate_readme]. *)
Definition readme_lines (cats : gmap string (list entry))
    (ordered_categories : list string) (total : nat) : list string :=
  ["# Claude Learning Plans";
   "";
   "Structured, multi-week learning curricula for senior engineers who want"
   +:+ " deep mastery of backend, infrastructure, and systems topics.";
   "";
   "## Overview";
   "";
   overview total;
   "";
   "## Plans by Category"]
  ++ concat (section_lines cats <$> ordered_categories)
  ++ ["";
      "## How to Use These Plans";
      "";
      "Each plan is a standalone Markdown file structured around:";
      "";
      "1. **Phases** — Progressive stages from foundations to advanced topics,"
      +:+ " typically spanning 12–16 weeks.";
      "2. **Milestones** — Concrete projects and exercises at each phase to"
      +:+ " validate understanding.";
      "3. **Curated Resources** — Books, documentation, talks, and blog posts"
      +:+ " selected for each topic.";
      "";
      closing_paragraph;
      ""].

(** The state a run leaves behind: the directory and what went to stderr.
    A run that returns is a run that exits with status 0. *)
Record outcome := Outcome {
  out_dir : directory;
  out_stderr : list string
}.

Definition readme_of (dir : directory) : list string :=
  let categories := sort_groups (categories (collect dir)) in
  let ordered_categories := order_categories categories in
  let total := count_plans categories ordered_categories in
  readme_lines categories ordered_categories total.

Definition generate_readme (dir : directory) : outcome :=
  Outcome (<["README.md" := Str.join Str.LF (readme_of dir)]> dir)
          (stderr (collect dir)).

(** * The vocabulary of the properties *)

(** The order of a sort by key. *)
Definition key_le {A} (key : A → string) (x y : A) : Prop :=
  String.le (key x) (key y).

(** ** The files of a run *)

Definition is_md (name : string) : Prop :=
  Str.endswith ".md" name && negb (Str.startswith "." name).

(** What becomes of one file of the listing. *)
Inductive verdict :=
| Excluded
| NoFrontMatter
| MissingFields
| Accepted (category : string) (e : entry).

Definition classify (dir : directory) (f : string) : verdict :=
  if decide (f ∈ EXCLUDED_FILES) then Excluded
  else
    match parse_front_matter (read dir f) with
    | None => NoFrontMatter
    | Some fm =>
        match fm !! "title", fm !! "category", fm !! "description" with
        | Some (String a t), Some (String b c), Some (String x d) =>
            Accepted (String b c) (Entry (String a t) (String x d) f)
        | _, _, _ => MissingFields
        end
    end.

(** The entry a file adds to the group of category [c]. *)
Definition accept (dir : directory) (c f : string) : option entry :=
  match classify dir f with
  | Accepted c' e => if decide (c' = c) then Some e else None
  | _ => None
  end.

(** The line a file adds to stderr. *)
Definition diagnostic (dir : directory) (f : string) : option string :=
  match classify dir f with
  | NoFrontMatter =>
      Some ("warning: " +:+ f +:+ " has no front matter, skipping")
  | MissingFields =>
      Some ("warning: " +:+ f
            +:+ " missing required front matter fields, skipping")
  | _ => None
  end.


(** The three required keys are present with non-empty values. *)
Definition has_required (fm : option (gmap string string)) : Prop :=
  ∃ m t c d, fm = Some m
    ∧ m !! "title" = Some t ∧ m !! "category" = Some c
    ∧ m !! "description" = Some d
    ∧ t ≠ "" ∧ c ≠ "" ∧ d ≠ "".

(** A file the loop parses: listed and not excluded. *)
Definition candidate (dir : directory) (f : string) : Prop :=
  f ∈ md_files dir ∧ f ∉ EXCLUDED_FILES.

(** An Entry for file [f] is in some group. *)
Definition has_entry (cats : gmap string (list entry)) (f : string) : Prop :=
  ∃ c e, e ∈ group_of cats c ∧ filename e = f.

(** The groups that are rendered. *)
Definition rendered_groups (dir : directory) : gmap string (list entry) :=
  sort_groups (categories (collect dir)).


(** An Entry bullet among the lines of the document. *)
Definition is_bullet (line : string) : Prop := Str.startswith "- [" line.

Global Instance is_bullet_dec line : Decision (is_bullet line).
Proof. unfold is_bullet. apply _. Defined.

(** The document of a run that accepted no file. *)
Definition empty_readme : list string := readme_lines ∅ [] 0.

(** ** The front matter *)


Definition two_quotes : string := Str.DQUOTE +:+ Str.DQUOTE.

(** The text of a file with the three required fields as empty quoted
    strings. *)
Definition empty_quoted_fields : string :=
  "---" +:+ Str.LF
  +:+ "title: " +:+ Str.DQUOTE +:+ Str.DQUOTE +:+ Str.LF
  +:+ "category: " +:+ Str.DQUOTE +:+ Str.DQUOTE +:+ Str.LF
  +:+ "description: " +:+ Str.DQUOTE +:+ Str.DQUOTE +:+ Str.LF
  +:+ "---" +:+ Str.LF.

(** ** The front matter as the specification words it *)




(** ** Sample inputs *)

(** A plan file: a front matter block with the three fields, the title in
    double quotes, then a body. *)
Definition plan (t c d : string) : string :=
  "---" +:+ Str.LF
  +:+ "title: " +:+ Str.DQUOTE +:+ t +:+ Str.DQUOTE +:+ Str.LF
  +:+ "category: " +:+ c +:+ Str.LF
  +:+ "description: '" +:+ d +:+ "'" +:+ Str.LF
  +:+ "---" +:+ Str.LF
  +:+ "# " +:+ t +:+ Str.LF.

(** The scenario of the specification: one plan and one file without
    front matter. *)
Definition scenario_dir : directory :=
  {[ "a.md" := plan "Go Internals" "Languages & Paradigms" "Deep dive";
     "b.md" := "no front matter here" ]}.

(** Three plans of one category whose titles are banana, Apple, cherry in
    the order of the file names. *)
Definition fruit_dir : directory :=
  {[ "1.md" := plan "banana" "Fruit" "yellow";
     "2.md" := plan "Apple" "Fruit" "red";
     "3.md" := plan "cherry" "Fruit" "dark" ]}.

(** Categories in and out of the preferred list, and two that differ by
    case only. *)
Definition mixed_dir : directory :=
  {[ "1.md" := plan "one" "Infrastructure" "d";
     "2.md" := plan "two" "ZZZ-Custom" "d";
     "3.md" := plan "three" "APIs & Protocols" "d";
     "4.md" := plan "four" "api" "d";
     "5.md" := plan "five" "API" "d" ]}.

Definition quotes_dir : directory := {[ "q.md" := empty_quoted_fields ]}.

Definition padded_line : string :=
  "title: " +:+ Str.DQUOTE +:+ "  Go  " +:+ Str.DQUOTE.

(** The opening line with a space after the hyphens. *)
Definition padded_opening : string :=
  "--- " +:+ Str.LF +:+ "k: v" +:+ Str.LF +:+ "---" +:+ Str.LF.



Ltac by_computation := apply (bool_decide_unpack _); vm_compute; exact I.

(** ** The document as a whole *)

(** The category and the Entry of every file the loop accepts, in the
    order of the listing. *)
Definition accepted_entries (dir : directory) : list (string * entry) :=
  omap (λ f, match classify dir f with
             | Accepted c e => Some (c, e)
             | _ => None
             end) (md_files dir).

(** The heading of a category section among the lines of the document. *)
Definition is_heading (line : string) : Prop := Str.startswith "### " line.

Global Instance is_heading_dec line : Decision (is_heading line).
Proof. unfold is_heading. apply _. Defined.

(** The count of the Overview sentence. *)
Definition total_of (dir : directory) : nat :=
  count_plans (rendered_groups dir) (order_categories (rendered_groups dir)).

(** ** A line of the block, read without regular expressions *)

(** The longest prefix of [s] whose characters satisfy [p], and the rest
    of [s]. *)
Fixpoint span (p : ascii → bool) (s : string) : string * string :=
  match s with
  | String a s' =>
      if p a then (String a (span p s').1, (span p s').2) else ("", s)
  | "" => ("", "")
  end.

(** A text that does not start with a character of the class. *)
Definition stops (p : ascii → bool) (s : string) : Prop :=
  match s with
  | String a _ => p a = false
  | "" => True
  end.

(** [s] without its last character, and that character. *)
Fixpoint chop_last (s : string) : option (string * ascii) :=
  match s with
  | "" => None
  | String a s' =>
      match chop_last s' with
      | Some (v, b) => Some (String a v, b)
      | None => Some ("", a)
      end
  end.

(** The text between a quote [q] that starts [t] and a quote [q] that ends
    it, when [t] is so quoted and the text between is not empty. *)
Definition unquote (q : ascii) (t : string) : option string :=
  match t with
  | String a t' =>
      match chop_last t' with
      | Some (v, b) =>
          if Ascii.eqb a q && Ascii.eqb b q && negb (Str.is_empty v)
          then Some v else None
      | None => None
      end
  | "" => None
  end.

(** The key of a line and the text after its colon: the line starts with
    a word, then white space may follow, then a colon. *)
Definition split_key (line : string) : option (string * string) :=
  let key := (span Char.isword line).1 in
  if Str.is_empty key then None
  else
    match (span Char.isspace (span Char.isword line).2).2 with
    | String a tail => if Ascii.eqb a Char.COLON then Some (key, tail) else None
    | "" => None
    end.

(** The key and the value of a line, or nothing for a line that is
    skipped: the value is the text between quotes when what follows the
    colon is quoted, else all that follows the colon, and white space
    around it is dropped in both cases. *)
Definition direct_line (line : string) : option (string * string) :=
  match split_key line with
  | None => None
  | Some (key, tail) =>
      match unquote Char.DQUOTE (Str.lstrip tail),
            unquote Char.SQUOTE (Str.lstrip tail) with
      | Some v, _ => Some (key, Str.strip v)
      | None, Some v => Some (key, Str.strip v)
      | None, None =>
          if Str.is_empty tail then None else Some (key, Str.strip tail)
      end
  end.

(** What a line adds to the mapping, if it adds anything. *)
Definition line_pair (line : string) : option (string * string) :=
  match match_line line with
  | Some m => Some (Re.group m 1, Str.strip (Re.group m 2))
  | None => None
  end.

(** ** A block given by its lines *)

(** A text that can be one line: it holds no line boundary. *)
Definition one_line (l : string) : Prop :=
  Str.all (λ a, negb (Char.islinebreak a)) l.

(** The lines, each one ended by a line feed. *)
Fixpoint unlines (lines : list string) : string :=
  match lines with
  | [] => ""
  | l :: lines' => l +:+ Str.LF +:+ unlines lines'
  end.

(** A line that closes a block: three hyphens, then white space only. *)
Definition is_delimiter (l : string) : bool :=
  match l with
  | String a (String b (String c w)) =>
      Ascii.eqb a Char.HYPHEN && Ascii.eqb b Char.HYPHEN
      && Ascii.eqb c Char.HYPHEN && Str.all Char.isspace w
  | _ => false
  end.

(** A file that starts with a block of the given lines: the opening
    delimiter with white space [w1] after it, the lines, the closing
    delimiter with white space [w2] after it, and the rest of the file. *)
Definition block_file (w1 : string) (lines : list string) (w2 rest : string)
    : string :=
  "---" +:+ w1 +:+ Str.LF +:+ unlines lines
  +:+ "---" +:+ w2 +:+ Str.LF +:+ rest.

(** ** Line endings *)

(** The text with every line feed turned into carriage return and line
    feed, as an editor on Windows saves it. *)
Fixpoint crlf (s : string) : string :=
  match s with
  | "" => ""
  | String a s' =>
      if Ascii.eqb a Char.LF then String Char.CR (String Char.LF (crlf s'))
      else String a (crlf s')
  end.

(** A text without a carriage return. *)
Definition no_CR (s : string) : Prop :=
  Str.all (λ a, negb (Ascii.eqb a Char.CR)) s.

(** The lines of the block of the plan file of the scenario. *)
Definition scenario_lines : list string :=
  ["title: " +:+ Str.DQUOTE +:+ "Go Internals" +:+ Str.DQUOTE;
   "category: Languages & Paradigms";
   "description: 'Deep dive'"].

(** ** The order of titles without regard to case *)

(** The rank of a character when case is ignored: an upper-case letter
    ranks as its lower-case letter, 32 code points further. *)
Definition caseless_code (a : ascii) : nat :=
  if Char.between 65 90 (Char.code a) then Char.code a + 32 else Char.code a.

(** Lexicographic comparison of two texts, character by character,
    without regard to case. *)
Fixpoint caseless_compare (s t : string) : comparison :=
  match s, t with
  | "", "" => Eq
  | "", String _ _ => Lt
  | String _ _, "" => Gt
  | String a s', String b t' =>
      match Nat.compare (caseless_code a) (caseless_code b) with
      | Eq => caseless_compare s' t'
      | c => c
      end
  end.

(** Two texts that differ by case only. *)
Definition caseless_eq (s t : string) : Prop := caseless_compare s t = Eq.

Global Instance caseless_eq_dec s t : Decision (caseless_eq s t).
Proof. unfold caseless_eq. apply _. Defined.



(** ** The number of the Overview sentence *)

(** The value of a decimal digit. *)
Definition digit (a : ascii) : option nat :=
  if Char.between 48 57 (Char.code a) then Some (Char.code a - 48) else None.

(** The number written by [acc] followed by the digits at the start of
    [s], and what follows these digits. *)
Fixpoint read_number (acc : nat) (s : string) : nat * string :=
  match s with
  | String a s' =>
      match digit a with
      | Some d => read_number (10 * acc + d) s'
      | None => (acc, s)
      end
  | "" => (acc, "")
  end.

(** The decimal number at the start of [s], of one digit at least, and
    what follows it. *)
Definition read_digits (s : string) : option (nat * string) :=
  match s with
  | String a s' =>
      match digit a with
      | Some d => Some (read_number d s')
      | None => None
      end
  | "" => None
  end.

(** [s] without the prefix [p], when it starts with [p]. *)
Fixpoint strip_prefix (p s : string) : option string :=
  match p, s with
  | "", _ => Some s
  | String a p', String b s' =>
      if Ascii.eqb a b then strip_prefix p' s' else None
  | String _ _, "" => None
  end.

(** The count a reader finds in the Overview sentence: the decimal number
    that stands between "This repository contains " and " self-paced
    learning plans". *)
Definition shown_count (sentence : string) : option nat :=
  match strip_prefix "This repository contains " sentence with
  | Some rest =>
      match read_digits rest with
      | Some (n, rest') =>
          if Str.startswith " self-paced learning plans" rest'
          then Some n else None
      | None => None
      end
  | None => None
  end.

(** ** Fields given as empty quoted strings *)






(** * Properties *)

(** ** Strings *)

Lemma str_app_cons (a : ascii) (s1 s2 : string) :
  String a s1 +:+ s2 = String a (s1 +:+ s2).
Proof. reflexivity. Qed.

Lemma str_app_nil_l (s : string) : "" +:+ s = s.
Proof. reflexivity. Qed.

Lemma str_app_assoc (s1 s2 s3 : string) :
  (s1 +:+ s2) +:+ s3 = s1 +:+ s2 +:+ s3.
Proof.
  induction s1 as [|a s1 IH]; [done|]. by rewrite !str_app_cons, IH.
Qed.

Lemma str_app_nil_r (s : string) : s +:+ "" = s.
Proof.
  induction s as [|a s IH]; [done|]. by rewrite str_app_cons, IH.
Qed.

Lemma str_length_app (s1 s2 : string) :
  String.length (s1 +:+ s2) = String.length s1 + String.length s2.
Proof.
  induction s1 as [|a s1 IH]; [done|]. rewrite str_app_cons. simpl.
  by rewrite IH.
Qed.

(** ** Sorting *)

Section sorting.
Context {A : Type} (key : A → string).

Lemma ltb_false_le (s1 s2 : string) :
  String.ltb s1 s2 = false → String.le s2 s1.
Proof.
  unfold String.ltb, String.le, String.leb.
  rewrite (String.compare_antisym s1 s2).
  by destruct (String.compare s2 s1).
Qed.

Lemma ltb_true_le (s1 s2 : string) :
  String.ltb s1 s2 = true → String.le s1 s2.
Proof.
  unfold String.ltb, String.le, String.leb.
  by destruct (String.compare s1 s2).
Qed.


Lemma insert_by_Permutation x l : Str.insert_by key x l ≡ₚ x :: l.
Proof.
  induction l as [|y l IH]; simpl; [done|].
  destruct (String.ltb (key y) (key x)); [|done].
  rewrite IH. apply Permutation_swap.
Qed.

Lemma sorted_by_Permutation l : Str.sorted_by key l ≡ₚ l.
Proof.
  induction l as [|x l IH]; simpl; [done|].
  by rewrite insert_by_Permutation, IH.
Qed.

Lemma insert_by_sorted x l :
  StronglySorted (key_le key) l → StronglySorted (key_le key) (Str.insert_by key x l).
Proof.
  induction 1 as [|y l Hs IH Hy]; simpl.
  { repeat constructor. }
  destruct (String.ltb (key y) (key x)) eqn:Hlt.
  - constructor; [done|].
    rewrite insert_by_Permutation. constructor; [|done].
    by apply ltb_true_le.
  - apply ltb_false_le in Hlt.
    constructor; [by constructor|].
    constructor; [done|].
    eapply Forall_impl; [exact Hy|].
    intros z Hz. unfold key_le in *. by etrans.
Qed.

Lemma sorted_by_sorted l : StronglySorted (key_le key) (Str.sorted_by key l).
Proof.
  induction l; simpl; [constructor|by apply insert_by_sorted].
Qed.




Lemma sorted_by_length l : length (Str.sorted_by key l) = length l.
Proof. by rewrite sorted_by_Permutation. Qed.

Lemma elem_of_sorted_by x l : x ∈ Str.sorted_by key l ↔ x ∈ l.
Proof. by rewrite sorted_by_Permutation. Qed.
End sorting.

(** A list of strings has one sorted arrangement. *)
Lemma sorted_unique (l1 l2 : list string) :
  l1 ≡ₚ l2 → Str.sorted l1 = Str.sorted l2.
Proof.
  intros Hp. apply (StronglySorted_unique String.le).
  - apply (sorted_by_sorted id).
  - apply (sorted_by_sorted id).
  - unfold Str.sorted. by rewrite !sorted_by_Permutation.
Qed.

(** ** The loop over the files *)

Lemma collect_file_classify dir st f :
  collect_file dir st f =
    match classify dir f with
    | Excluded => st
    | NoFrontMatter =>
        warn ("warning: " +:+ f +:+ " has no front matter, skipping") st
    | MissingFields =>
        warn ("warning: " +:+ f
              +:+ " missing required front matter fields, skipping") st
    | Accepted c e =>
        Collected (setdefault_append c e (categories st)) (stderr st)
    end.
Proof.
  unfold collect_file, classify.
  destruct (decide (f ∈ EXCLUDED_FILES)); [done|].
  destruct (parse_front_matter (read dir f)) as [fm|]; [|done].
  destruct (fm !! "title") as [[|a t]|]; simpl; try done;
    destruct (fm !! "category") as [[|b c]|]; simpl; try done;
    destruct (fm !! "description") as [[|x d]|]; simpl; done.
Qed.

Lemma classify_Accepted_filename dir f c e :
  classify dir f = Accepted c e → filename e = f.
Proof.
  unfold classify. intros H.
  repeat (case_match; simplify_eq); done.
Qed.

Lemma classify_Accepted_iff dir f :
  f ∉ EXCLUDED_FILES →
  (∃ c e, classify dir f = Accepted c e)
  ↔ has_required (parse_front_matter (read dir f)).
Proof.
  intros Hf. unfold classify, has_required.
  destruct (decide (f ∈ EXCLUDED_FILES)); [done|].
  destruct (parse_front_matter (read dir f)) as [fm|]; [|naive_solver].
  split.
  - intros (c & e & H).
    repeat (case_match; simplify_eq).
    eexists _, _, _, _. repeat split; eauto.
  - intros (m & t & c & d & ? & Ht & Hc & Hd & ? & ? & ?); simplify_eq.
    rewrite Ht, Hc, Hd.
    destruct t, c, d; try done. eauto.
Qed.

Section fold.
Context (dir : directory).

Lemma group_of_setdefault_append c c' e cats :
  group_of (setdefault_append c' e cats) c =
    group_of cats c ++ (if decide (c' = c) then [e] else []).
Proof.
  unfold group_of, setdefault_append.
  destruct (decide (c' = c)) as [->|Hne].
  - by rewrite lookup_insert_eq.
  - rewrite lookup_insert_ne by done. by rewrite app_nil_r.
Qed.

Lemma dom_setdefault_append c e cats :
  dom (setdefault_append c e cats) = {[c]} ∪ dom cats.
Proof. unfold setdefault_append. by rewrite dom_insert_L. Qed.

Lemma foldl_collect_group st l c :
  group_of (categories (foldl (collect_file dir) st l)) c
  = group_of (categories st) c ++ omap (accept dir c) l.
Proof.
  revert st. induction l as [|f l IH]; intros st; simpl.
  { by rewrite app_nil_r. }
  rewrite IH, collect_file_classify. unfold accept.
  destruct (classify dir f) as [| | |c' e]; simpl; try done.
  rewrite group_of_setdefault_append.
  destruct (decide (c' = c)); simpl; by rewrite <-?app_assoc, ?app_nil_r.
Qed.

Lemma foldl_collect_dom st l c :
  c ∈ dom (categories (foldl (collect_file dir) st l))
  ↔ c ∈ dom (categories st) ∨ ∃ f e, f ∈ l ∧ classify dir f = Accepted c e.
Proof.
  revert st. induction l as [|f l IH]; intros st; simpl.
  { split; [by left|]. intros [?|(?&?&H&?)]; [done|]. by inversion H. }
  rewrite IH, collect_file_classify.
  destruct (classify dir f) as [| | |c' e] eqn:Hc; simpl;
    rewrite ?dom_setdefault_append; split; intros [H|(f'&e'&H&Hf')];
    try (by left);
    try (right; exists f', e'; split; [by right|done]);
    try (apply elem_of_cons in H as [->|H]; [congruence|];
         right; by exists f', e').
  - apply elem_of_union in H as [H|H]; [|by left].
    apply elem_of_singleton in H as ->.
    right. exists f, e. split; [by left|done].
  - left. set_solver.
  - apply elem_of_cons in H as [->|H].
    + left. rewrite Hc in Hf'. simplify_eq. set_solver.
    + right. by exists f', e'.
Qed.

Lemma foldl_collect_stderr st l :
  stderr (foldl (collect_file dir) st l)
  = stderr st ++ omap (diagnostic dir) l.
Proof.
  revert st. induction l as [|f l IH]; intros st; simpl.
  { by rewrite app_nil_r. }
  rewrite IH, collect_file_classify. unfold diagnostic.
  destruct (classify dir f); simpl; by rewrite <-?app_assoc.
Qed.

Lemma collect_group c :
  group_of (categories (collect dir)) c = omap (accept dir c) (md_files dir).
Proof. unfold collect. by rewrite foldl_collect_group. Qed.

Lemma collect_dom c :
  c ∈ dom (categories (collect dir))
  ↔ ∃ f e, f ∈ md_files dir ∧ classify dir f = Accepted c e.
Proof.
  unfold collect. rewrite foldl_collect_dom. simpl.
  rewrite dom_empty_L. set_solver.
Qed.

Lemma collect_stderr :
  stderr (collect dir) = omap (diagnostic dir) (md_files dir).
Proof. unfold collect. by rewrite foldl_collect_stderr. Qed.

Lemma has_entry_collect f :
  has_entry (categories (collect dir)) f
  ↔ f ∈ md_files dir ∧ ∃ c e, classify dir f = Accepted c e.
Proof.
  unfold has_entry. split.
  - intros (c & e & He & Hf). rewrite collect_group in He.
    apply list_elem_of_omap in He as (f' & Hin & Ha).
    unfold accept in Ha.
    destruct (classify dir f') as [| | |c' e'] eqn:Hc; try done.
    case_decide; simplify_eq.
    apply classify_Accepted_filename in Hc as Hfn. subst f'.
    eauto.
  - intros (Hin & c & e & Hc). exists c, e.
    split; [|by eapply classify_Accepted_filename].
    rewrite collect_group. apply list_elem_of_omap.
    exists f. split; [done|]. unfold accept. rewrite Hc.
    by rewrite decide_True.
Qed.
End fold.

(** ** The listing *)

Lemma elem_of_md_files dir f :
  f ∈ md_files dir ↔ is_md f ∧ is_Some (dir !! f).
Proof.
  unfold md_files, Str.sorted, glob_md.
  rewrite elem_of_sorted_by, list_elem_of_filter.
  unfold is_md. apply and_iff_compat_l.
  rewrite list_elem_of_fmap. split.
  - intros ([k v] & -> & Hin). apply elem_of_map_to_list in Hin. by exists v.
  - intros [v Hv]. exists (f, v). split; [done|]. by apply elem_of_map_to_list.
Qed.

Lemma NoDup_md_files dir : NoDup (md_files dir).
Proof.
  unfold md_files, Str.sorted, glob_md.
  rewrite sorted_by_Permutation.
  apply NoDup_filter, NoDup_fst_map_to_list.
Qed.

Lemma md_files_sorted dir : StronglySorted String.le (md_files dir).
Proof. apply (sorted_by_sorted id). Qed.

(** ** C1: an Entry exactly for the files with the three required fields *)

Lemma has_entry_sort_groups cats f :
  has_entry (sort_groups cats) f ↔ has_entry cats f.
Proof.
  unfold has_entry, sort_groups, group_of.
  do 2 (apply exist_proper; intros ?). rewrite lookup_fmap.
  destruct (cats !! _) as [g|]; simpl; [|done].
  unfold sort_entries. by rewrite elem_of_sorted_by.
Qed.

(** C1.  For every candidate file of a run (listed by the glob and not
    excluded), the run produces an Entry for the file if and only if its
    parsed front matter is a mapping that has the keys title, category and
    description with non-empty values; a file with no mapping, a missing
    key or an empty value has no Entry.  The Entries are those of the
    groups that are rendered. *)
Theorem required_field_gating (dir : directory) (f : string) :
  candidate dir f →
  has_entry (sort_groups (categories (collect dir))) f
  ↔ has_required (parse_front_matter (read dir f)).
Proof.
  intros [Hin Hex].
  rewrite <-classify_Accepted_iff by done.
  rewrite has_entry_sort_groups, has_entry_collect. naive_solver.
Qed.

(** ** C2: the order of the categories *)

Lemma rendered_groups_dom dir c :
  c ∈ dom (rendered_groups dir)
  ↔ ∃ f e, f ∈ md_files dir ∧ classify dir f = Accepted c e.
Proof.
  unfold rendered_groups, sort_groups. by rewrite dom_fmap_L, collect_dom.
Qed.

(** C2.  The list of category names is the preferred list restricted to
    the categories that are present, in the preferred order, followed by
    the other present categories in ascending order of their strings
    (comparison by code point, upper case before lower case), each once.  A
    category is present when some file was accepted with exactly that
    string as its category: no normalisation takes place.  The preferred
    list has nine names, all different. *)
Theorem category_order (dir : directory) :
  ∃ unknown,
    order_categories (rendered_groups dir)
    = filter (λ c, c ∈ dom (rendered_groups dir)) CATEGORY_ORDER ++ unknown
    ∧ StronglySorted String.le unknown
    ∧ NoDup unknown
    ∧ (∀ c, c ∈ unknown ↔ c ∈ dom (rendered_groups dir) ∧ c ∉ CATEGORY_ORDER)
    ∧ (∀ c, c ∈ dom (rendered_groups dir)
          ↔ ∃ f e, f ∈ md_files dir ∧ classify dir f = Accepted c e)
    ∧ length CATEGORY_ORDER = 9 ∧ NoDup CATEGORY_ORDER.
Proof.
  eexists. split; [reflexivity|].
  split; [apply (sorted_by_sorted id)|].
  split; [|split; [|split; [|split]]].
  - unfold Str.sorted. rewrite sorted_by_Permutation. apply NoDup_elements.
  - intros c. unfold Str.sorted.
    rewrite elem_of_sorted_by, elem_of_elements, elem_of_difference.
    by rewrite elem_of_list_to_set.
  - apply rendered_groups_dom.
  - done.
  - apply (bool_decide_unpack _). by vm_compute.
Qed.

(** ** C3: the order inside a group *)










(** ** C4: the count of the Overview sentence *)

Lemma unfold_readme_of dir :
  readme_of dir =
    readme_lines (rendered_groups dir) (order_categories (rendered_groups dir))
      (count_plans (rendered_groups dir)
         (order_categories (rendered_groups dir))).
Proof. done. Qed.

Lemma is_bullet_bullet e : is_bullet (bullet e).
Proof.
  unfold is_bullet, Str.startswith, bullet. simpl.
  by destruct (title e +:+ _).
Qed.

Lemma filter_bullet_section cats c :
  filter is_bullet (section_lines cats c) = bullet <$> group_of cats c.
Proof.
  unfold section_lines. rewrite filter_app.
  replace (filter is_bullet ["";  "### " +:+ c; ""]) with (@nil string)
    by reflexivity.
  simpl. induction (group_of cats c) as [|e g IH]; [done|].
  rewrite fmap_cons, filter_cons_True by apply is_bullet_bullet.
  by rewrite IH.
Qed.

Lemma filter_bullet_sections cats cs :
  filter is_bullet (concat (section_lines cats <$> cs))
  = concat ((λ c, bullet <$> group_of cats c) <$> cs).
Proof.
  induction cs as [|c cs IH]; [done|].
  rewrite !fmap_cons, !concat_cons.
  by rewrite filter_app, filter_bullet_section, IH.
Qed.

Lemma length_bullets cats cs :
  length (concat ((λ c, bullet <$> group_of cats c) <$> cs))
  = count_plans cats cs.
Proof.
  unfold count_plans. induction cs as [|c cs IH]; [done|].
  rewrite !fmap_cons, concat_cons, length_app, length_fmap, IH. done.
Qed.

Lemma digit_pretty_N_char (d : N) :
  (d < 10)%N → digit (pretty_N_char d) = Some (N.to_nat d).
Proof.
  intros Hd. rewrite <-(N2Nat.id d) in *.
  assert (N.to_nat d < 10) as Hn by lia.
  rewrite Nat2N.id. revert Hn. generalize (N.to_nat d). intros n Hn.
  do 10 (destruct n as [|n]; [done|]). lia.
Qed.

Lemma read_digits_pretty_N_go (x : N) :
  (0 < x)%N →
  ∀ s, read_digits (pretty_N_go x s) = Some (read_number (N.to_nat x) s).
Proof.
  induction (N.lt_wf_0 x) as [x _ IH]. intros Hx s.
  rewrite pretty_N_go_step by done.
  assert (x `mod` 10 < 10)%N as Hd by (apply N.mod_lt; lia).
  assert (N.to_nat x
          = 10 * N.to_nat (x `div` 10) + N.to_nat (x `mod` 10)) as Hx10.
  { rewrite (N.div_mod x 10) at 1 by lia. lia. }
  destruct (decide (x `div` 10 = 0)%N) as [H0|H0].
  - rewrite H0, pretty_N_go_0. simpl.
    rewrite digit_pretty_N_char by done. do 2 f_equal.
    rewrite Hx10, H0. simpl. lia.
  - rewrite IH; [|apply N.div_lt; lia|lia].
    simpl. rewrite digit_pretty_N_char by done. by rewrite Hx10.
Qed.

Lemma read_digits_of_nat (n : nat) (s : string) :
  read_digits (Str.of_nat n +:+ s) = Some (read_number n s).
Proof.
  unfold Str.of_nat, pretty, pretty_nat, pretty, pretty_N.
  destruct (decide (N.of_nat n = 0)%N) as [H0|H0].
  - assert (n = 0) as -> by lia. done.
  - assert (∀ x t, pretty_N_go x "" +:+ t = pretty_N_go x t) as Happ.
    { intros x. induction (N.lt_wf_0 x) as [x _ IH]. intros t.
      destruct (decide (x = 0)%N) as [->|Hx].
      - by rewrite !pretty_N_go_0.
      - rewrite !(pretty_N_go_step x) by lia.
        assert (x `div` 10 < x)%N as Hlt by (apply N.div_lt; lia).
        rewrite <-(IH _ Hlt (String _ "")), <-(IH _ Hlt (String _ t)).
        by rewrite str_app_assoc. }
    rewrite Happ, read_digits_pretty_N_go by lia. by rewrite Nat2N.id.
Qed.

(** The count is read back from the sentence of the code. *)
Lemma shown_count_overview (n : nat) : shown_count (overview n) = Some n.
Proof.
  unfold shown_count, overview.
  change (strip_prefix "This repository contains "
            ("This repository contains " +:+ ?s)) with (Some s).
  cbv beta iota. rewrite read_digits_of_nat. by vm_compute.
Qed.

Lemma shown_count_readme dir :
  ∃ sentence,
    readme_of dir !! 6 = Some sentence
    ∧ shown_count sentence = Some (total_of dir).
Proof.
  exists (overview (total_of dir)). split; [by rewrite unfold_readme_of|].
  apply shown_count_overview.
Qed.

(** C4.  The seventh line of the document is the Overview sentence: it
    reads "This repository contains ", a decimal number, " self-paced
    learning plans" and so on, and that number is the number of Entry
    bullets among the lines of the document; these bullets are the bullets
    of the rendered groups, section after section. *)
Theorem count_accuracy (dir : directory) :
  ∃ sentence,
    readme_of dir !! 6 = Some sentence
    ∧ shown_count sentence = Some (length (filter is_bullet (readme_of dir)))
    ∧ filter is_bullet (readme_of dir)
      = concat ((λ c, bullet <$> group_of (rendered_groups dir) c)
                  <$> order_categories (rendered_groups dir)).
Proof.
  destruct (shown_count_readme dir) as (sentence & Hline & Hshown).
  exists sentence. split; [done|].
  assert (filter is_bullet (readme_of dir)
      = concat ((λ c, bullet <$> group_of (rendered_groups dir) c)
                  <$> order_categories (rendered_groups dir))) as Hb.
  { rewrite unfold_readme_of. unfold readme_lines.
    rewrite !filter_app, filter_bullet_sections.
    match goal with
    | |- filter _ ?hd ++ _ ++ filter _ ?tl = _ =>
        replace (filter is_bullet hd) with (@nil string) by reflexivity;
        replace (filter is_bullet tl) with (@nil string) by reflexivity
    end.
    by rewrite app_nil_r. }
  split; [|done]. by rewrite Hshown, Hb, length_bullets.
Qed.

(** ** C8: the end of the document *)

Lemma concat_snoc2 sep (pre : list string) a b :
  ∃ body, String.concat sep (pre ++ [a; b]) = body +:+ a +:+ sep +:+ b.
Proof.
  induction pre as [|x pre [body IH]].
  - by exists "".
  - destruct pre as [|y pre].
    + exists (x +:+ sep). simpl. by rewrite !str_app_assoc.
    + exists (x +:+ sep +:+ body).
      change (String.concat sep ((x :: y :: pre) ++ [a; b]))
        with (x +:+ sep +:+ String.concat sep ((y :: pre) ++ [a; b])).
      rewrite IH. by rewrite !str_app_assoc.
Qed.

(** C8.  The lines of the document end with the closing paragraph of the
    How to Use section followed by one empty line, and the paragraph is
    not empty; so the text that is written ends with the paragraph and one
    line feed. *)
Theorem trailing_blank_line (dir : directory) :
  (∃ pre, readme_of dir = pre ++ [closing_paragraph; ""])
  ∧ closing_paragraph ≠ ""
  ∧ ∃ body, out_dir (generate_readme dir) !! "README.md"
            = Some (body +:+ closing_paragraph +:+ Str.LF).
Proof.
  assert (∃ pre, readme_of dir = pre ++ [closing_paragraph; ""])
    as [pre Hpre].
  { rewrite unfold_readme_of. unfold readme_lines. eexists.
    rewrite !app_assoc.
    match goal with
    | |- ?l ++ ?tl = _ =>
        change tl with (take 9 tl ++ [closing_paragraph; ""])
    end.
    rewrite !app_assoc. reflexivity. }
  split; [by exists pre|]. split; [done|].
  unfold generate_readme. cbn [out_dir]. rewrite lookup_insert_eq.
  unfold Str.join. rewrite Hpre.
  destruct (concat_snoc2 Str.LF pre closing_paragraph "") as [body ->].
  by exists body.
Qed.

(** ** C5: a second run gives the same document *)

Lemma StronglySorted_filter_le (P : string → Prop) `{!∀ x, Decision (P x)}
    (l : list string) :
  StronglySorted String.le l → StronglySorted String.le (filter P l).
Proof.
  induction 1 as [|x l Hs IH Hx]; [constructor|].
  rewrite filter_cons. case_decide; [|done].
  constructor; [done|].
  apply Forall_forall. intros y [_ Hy]%list_elem_of_filter.
  by eapply Forall_forall in Hx.
Qed.

Section agree.
Context (dir1 dir2 : directory).
Hypothesis agree : ∀ f, f ∉ EXCLUDED_FILES → dir2 !! f = dir1 !! f.

Lemma classify_agree f : classify dir2 f = classify dir1 f.
Proof.
  unfold classify, read.
  destruct (decide (f ∈ EXCLUDED_FILES)); [done|]. by rewrite agree.
Qed.

Lemma collect_file_agree st f :
  collect_file dir2 st f = collect_file dir1 st f.
Proof. by rewrite !collect_file_classify, classify_agree. Qed.

Lemma candidates_agree :
  filter (.∉ EXCLUDED_FILES) (md_files dir2)
  = filter (.∉ EXCLUDED_FILES) (md_files dir1).
Proof.
  apply (StronglySorted_unique String.le).
  - apply StronglySorted_filter_le, md_files_sorted.
  - apply StronglySorted_filter_le, md_files_sorted.
  - apply NoDup_Permutation; try apply NoDup_filter, NoDup_md_files.
    intros f. rewrite !list_elem_of_filter, !elem_of_md_files.
    split; intros (Hex & Hmd & Hin); (split; [done|split; [done|]]).
    + by rewrite <-agree.
    + by rewrite agree.
Qed.

Lemma foldl_collect_file_filter dir st l :
  foldl (collect_file dir) st l
  = foldl (collect_file dir) st (filter (.∉ EXCLUDED_FILES) l).
Proof.
  revert st. induction l as [|f l IH]; intros st; [done|].
  rewrite filter_cons. case_decide as Hf; simpl; [done|].
  rewrite <-IH. f_equal. unfold collect_file.
  by rewrite decide_True by done.
Qed.

Lemma collect_agree : collect dir2 = collect dir1.
Proof.
  unfold collect.
  rewrite (foldl_collect_file_filter dir2), (foldl_collect_file_filter dir1).
  rewrite candidates_agree.
  generalize (Collected ∅ []).
  induction (filter _ (md_files dir1)) as [|f l IH]; intros st; [done|].
  simpl. by rewrite collect_file_agree, IH.
Qed.

Lemma readme_of_agree : readme_of dir2 = readme_of dir1.
Proof. unfold readme_of. by rewrite collect_agree. Qed.
End agree.

Lemma README_excluded : "README.md" ∈ EXCLUDED_FILES.
Proof. unfold EXCLUDED_FILES. set_solver. Qed.

(** C5.  The document and the warnings of a run are determined by the
    files of the directory other than the two excluded ones: two
    directories that agree on every other name give the same lines and the
    same warnings.  In particular README.md, whatever it holds, has no
    effect, and a second run on the directory the first run left behind
    ends in the same state: the same bytes in README.md and the same
    warnings. *)
Theorem idempotence (dir : directory) :
  generate_readme (out_dir (generate_readme dir)) = generate_readme dir
  ∧ (∀ text, readme_of (<["README.md" := text]> dir) = readme_of dir)
  ∧ (∀ dir', (∀ f, f ∉ EXCLUDED_FILES → dir' !! f = dir !! f) →
       readme_of dir' = readme_of dir
       ∧ out_stderr (generate_readme dir') = out_stderr (generate_readme dir)).
Proof.
  assert (∀ text f, f ∉ EXCLUDED_FILES →
            <["README.md" := text]> dir !! f = dir !! f) as Hins.
  { intros text f Hf. apply lookup_insert_ne. intros <-.
    apply Hf, README_excluded. }
  split; [|split].
  - unfold generate_readme. cbn [out_dir].
    set (text := Str.join Str.LF (readme_of dir)).
    rewrite (readme_of_agree dir (<["README.md" := text]> dir) (Hins text)).
    rewrite (collect_agree dir (<["README.md" := text]> dir) (Hins text)).
    by rewrite insert_insert_eq.
  - intros text. apply readme_of_agree, Hins.
  - intros dir' Hagree. split; [by apply readme_of_agree|].
    unfold generate_readme. cbn [out_stderr].
    by rewrite (collect_agree dir dir' Hagree).
Qed.

(** ** C9: files that are skipped *)




(** ** The regular expressions *)

Module ReFacts.
Import Re.

Lemma star_is_Some c (k : cont) (P : nat → string → Prop) :
  (∀ pos s st, is_Some (k pos s st) ↔ P pos s) →
  ∀ s pos st,
    is_Some (star c k pos s st)
    ↔ ∃ w s', s = w +:+ s' ∧ Str.all (accepts c) w
              ∧ P (pos + String.length w) s'.
Proof.
  intros Hk. induction s as [|a s IH]; intros pos st; simpl.
  - rewrite Hk. split.
    + intros H. exists "", "". by rewrite Nat.add_0_r.
    + intros (w & s' & Heq & _ & H).
      destruct w; [|done]. rewrite str_app_nil_l in Heq. subst s'.
      by rewrite Nat.add_0_r in H.
  - destruct (accepts c a) eqn:Ha.
    + split.
      * destruct (star c k (S pos) s st) eqn:Hs.
        -- intros _. destruct (proj1 (IH (S pos) st)) as (w & s' & -> & ? & ?).
           { by rewrite Hs. }
           exists (String a w), s'. simpl. rewrite Ha.
           by rewrite <-Nat.add_succ_comm.
        -- intros H%Hk. exists "", (String a s). by rewrite Nat.add_0_r.
      * intros ([|b w] & s' & Heq & Hall & H).
        -- rewrite str_app_nil_l in Heq. subst s'. rewrite Nat.add_0_r in H.
           destruct (star c k (S pos) s st); [done|]. by apply Hk.
        -- rewrite str_app_cons in Heq. simplify_eq. simpl in Hall.
           apply andb_prop_elim in Hall as [_ Hall].
           simpl in H. rewrite <-Nat.add_succ_comm in H.
           destruct (proj2 (IH (S pos) st)) as [r ->]; [|done].
           by exists w, s'.
    + rewrite Hk. split.
      * intros H. exists "", (String a s). by rewrite Nat.add_0_r.
      * intros ([|b w] & s' & Heq & Hall & H).
        -- rewrite str_app_nil_l in Heq. subst s'. by rewrite Nat.add_0_r in H.
        -- rewrite str_app_cons in Heq. simplify_eq. simpl in Hall.
           by rewrite Ha in Hall.
Qed.

Lemma star_lazy_is_Some c (k : cont) (P : nat → string → Prop) :
  (∀ pos s st, is_Some (k pos s st) ↔ P pos s) →
  ∀ s pos st,
    is_Some (star_lazy c k pos s st)
    ↔ ∃ w s', s = w +:+ s' ∧ Str.all (accepts c) w
              ∧ P (pos + String.length w) s'.
Proof.
  intros Hk.
  assert (∀ pos s st, is_Some (k pos s st) →
            ∃ w s', s = w +:+ s' ∧ Str.all (accepts c) w
                    ∧ P (pos + String.length w) s') as Hnow.
  { intros pos s st H%Hk. exists "", s. by rewrite Nat.add_0_r. }
  induction s as [|a s IH]; intros pos st; simpl.
  - split.
    + destruct (k pos "" st) eqn:Hs; [|by intros []].
      intros _. apply (Hnow pos "" st). by rewrite Hs.
    + intros (w & s' & Heq & _ & H).
      destruct w; [|done]. rewrite str_app_nil_l in Heq. subst s'.
      rewrite Nat.add_0_r in H. apply (Hk _ _ st) in H as [r ->]. done.
  - split.
    + destruct (k pos (String a s) st) eqn:Hs.
      { intros _. apply (Hnow pos _ st). by rewrite Hs. }
      destruct (accepts c a) eqn:Ha; [|by intros []].
      intros (w & s' & -> & ? & ?)%IH.
      exists (String a w), s'. simpl. rewrite Ha.
      by rewrite <-Nat.add_succ_comm.
    + intros ([|b w] & s' & Heq & Hall & H).
      * rewrite str_app_nil_l in Heq. subst s'. rewrite Nat.add_0_r in H.
        apply (Hk _ _ st) in H as [r ->]. done.
      * rewrite str_app_cons in Heq. simplify_eq. simpl in Hall.
        apply andb_prop_elim in Hall as [Ha Hall].
        destruct (k pos _ st); [done|].
        apply Is_true_true in Ha. rewrite Ha. apply IH.
        exists w, s'. simpl in H. by rewrite <-Nat.add_succ_comm in H.
Qed.

(** The engine finds a match exactly when there is one. *)
Lemma run_is_Some r : ∀ pos s st,
  is_Some (run r pos s st) ↔ matches r pos s.
Proof.
  induction r as [|it r IH]; intros pos s st.
  { simpl. split; [done|]. by eexists. }
  destruct it as [c|c|c|c|g|g| |]; simpl.
  - destruct s as [|a s].
    + split; [by intros []|]. by intros (? & ? & ? & _).
    + destruct (accepts c a) eqn:Ha.
      * rewrite IH. split; [intros ?; exists a, s; by rewrite Ha|].
        by intros (? & ? & [= <- <-] & _ & ?).
      * split; [by intros []|].
        intros (? & ? & [= <- <-] & H & _). by rewrite Ha in H.
  - by apply star_is_Some.
  - by apply star_lazy_is_Some.
  - destruct s as [|a s].
    + split; [by intros []|]. by intros (? & ? & ? & ? & _).
    + destruct (accepts c a) eqn:Ha.
      * rewrite (star_is_Some c (run r) (matches r) IH). split.
        -- intros (w & s' & -> & ? & ?). exists a, w, s'. by rewrite Ha.
        -- intros (? & w & s' & [= <- ->] & _ & ? & ?). by exists w, s'.
      * split; [by intros []|].
        intros (? & ? & ? & [= <- _] & H & _). by rewrite Ha in H.
  - apply IH.
  - apply IH.
  - destruct (Nat.eqb_spec pos 0) as [->|Hne].
    + rewrite IH. naive_solver.
    + split; [by intros []|]. by intros [? _].
  - destruct (at_eol s).
    + rewrite IH. naive_solver.
    + split; [by intros []|]. by intros [? _].
Qed.

End ReFacts.

(** ** C6: when there is a front matter block *)

Lemma accepts_Chr a b : Re.accepts (Re.Chr b) a → a = b.
Proof. simpl. intros H. by apply Ascii.eqb_eq, Is_true_true. Qed.





(** ** The patterns of a line *)

Lemma isword_not_space a : Char.isword a → Char.isspace a = false.
Proof. destruct a as [[] [] [] [] [] [] [] []]; by vm_compute. Qed.

Lemma isword_not_colon a : Char.isword a → Ascii.eqb a Char.COLON = false.
Proof. destruct a as [[] [] [] [] [] [] [] []]; by vm_compute. Qed.

Lemma isspace_not_colon a : Char.isspace a → Ascii.eqb a Char.COLON = false.
Proof. destruct a as [[] [] [] [] [] [] [] []]; by vm_compute. Qed.

Lemma str_all_app p s1 s2 :
  Str.all p (s1 +:+ s2) = Str.all p s1 && Str.all p s2.
Proof.
  induction s1 as [|a s1 IH]; [done|].
  rewrite str_app_cons. simpl. by rewrite IH, andb_assoc.
Qed.

Lemma substring_app_mid pre mid post :
  String.substring (String.length pre) (String.length mid)
    (pre +:+ mid +:+ post) = mid.
Proof.
  induction pre as [|a pre IH]; [|by rewrite str_app_cons].
  rewrite str_app_nil_l. simpl String.length.
  induction mid as [|b mid IH]; [by destruct post|].
  rewrite str_app_cons. simpl. by rewrite IH.
Qed.

Lemma slice_app_mid i j pre mid post :
  i = String.length pre → j = i + String.length mid →
  Str.slice i j (pre +:+ mid +:+ post) = mid.
Proof.
  intros -> ->. unfold Str.slice.
  replace (_ + _ - _) with (String.length mid) by lia.
  apply substring_app_mid.
Qed.

Section engine.
Import Re.
Context (c : charclass) (k : cont).

(** A repetition whose continuation cannot start with one of its own
    characters takes all of them. *)
Lemma star_commit w s pos st :
  (∀ a s' p st', accepts c a → k p (String a s') st' = None) →
  Str.all (accepts c) w →
  star c k pos (w +:+ s) st = star c k (pos + String.length w) s st.
Proof.
  intros Hk. revert pos. induction w as [|a w IH]; intros pos Hw.
  { by rewrite str_app_nil_l, Nat.add_0_r. }
  rewrite str_app_cons. simpl in *.
  apply andb_prop_elim in Hw as [Ha Hw].
  rewrite (Is_true_true_1 _ Ha), IH, Hk by done.
  rewrite <-Nat.add_succ_comm. by destruct (star _ _ _ _ _).
Qed.

(** A greedy repetition keeps what it took when the rest of the pattern
    then matches. *)
Lemma star_keep w s pos st :
  Str.all (accepts c) w →
  is_Some (star c k (pos + String.length w) s st) →
  star c k pos (w +:+ s) st = star c k (pos + String.length w) s st.
Proof.
  revert pos. induction w as [|a w IH]; intros pos Hw Hs.
  { by rewrite str_app_nil_l, Nat.add_0_r. }
  rewrite str_app_cons. simpl in *.
  apply andb_prop_elim in Hw as [Ha Hw].
  rewrite <-Nat.add_succ_comm in *.
  rewrite (Is_true_true_1 _ Ha), IH by done.
  by destruct Hs as [r ->].
Qed.

(** It takes nothing from a text that starts with another character. *)
Lemma star_stop a s pos st :
  accepts c a = false → star c k pos (String a s) st = k pos (String a s) st.
Proof. intros Ha. simpl. by rewrite Ha. Qed.
End engine.

Section steps.
Import Re.

Lemma run_Bol r s st : run (Bol :: r) 0 s st = run r 0 s st.
Proof. done. Qed.

Lemma run_GroupOpen g r pos s st :
  run (GroupOpen g :: r) pos s st = run r pos s (open_group g pos st).
Proof. done. Qed.

Lemma run_GroupClose g r pos s st :
  run (GroupClose g :: r) pos s st = run r pos s (close_group g pos st).
Proof. done. Qed.

Lemma run_Star c r : run (Star c :: r) = star c (run r).
Proof. done. Qed.

Lemma run_One c r a s pos st :
  accepts c a → run (One c :: r) pos (String a s) st = run r (S pos) s st.
Proof. intros Ha. simpl. by rewrite (Is_true_true_1 _ Ha). Qed.

Lemma run_One_fail c r a s pos st :
  accepts c a = false → run (One c :: r) pos (String a s) st = None.
Proof. intros Ha. simpl. by rewrite Ha. Qed.

Lemma run_Plus c r a s pos st :
  accepts c a →
  run (Plus c :: r) pos (String a s) st = star c (run r) (S pos) s st.
Proof. intros Ha. simpl. by rewrite (Is_true_true_1 _ Ha). Qed.

(** [.+] before the end of the line takes the rest of the line. *)
Lemma star_Dot_Eol g v pos st :
  Str.all (accepts Dot) v →
  star Dot (run [GroupClose g; Eol]) pos v st
  = Some (close_group g (pos + String.length v) st).
Proof.
  revert pos. induction v as [|a v IH]; intros pos Hv.
  { simpl. by rewrite Nat.add_0_r. }
  simpl in Hv. apply andb_prop_elim in Hv as [Ha Hv].
  simpl star. simpl in Ha. rewrite (Is_true_true_1 _ Ha).
  rewrite IH by done. simpl String.length. do 2 f_equal. lia.
Qed.

(** [.+] before a closing quote at the end of the line takes the line up
    to that quote. *)
Lemma star_Dot_quote g q v pos st :
  Ascii.eqb q Char.LF = false →
  Str.all (accepts Dot) v →
  star Dot (run [GroupClose g; One (Chr q); Eol]) pos (v +:+ String q "") st
  = Some (close_group g (pos + String.length v) st).
Proof.
  intros Hq. revert pos. induction v as [|a v IH]; intros pos Hv.
  { rewrite str_app_nil_l, Nat.add_0_r. simpl.
    by rewrite Hq, Ascii.eqb_refl. }
  simpl in Hv. apply andb_prop_elim in Hv as [Ha Hv].
  rewrite str_app_cons. simpl star. simpl in Ha.
  rewrite (Is_true_true_1 _ Ha).
  rewrite IH by done. simpl String.length. do 2 f_equal. lia.
Qed.
End steps.

Section key.
Import Re.
Context (key w1 : string).
Hypothesis key_ne : key ≠ "".
Hypothesis key_word : Str.all Char.isword key.
Hypothesis w1_space : Str.all Char.isspace w1.

(** [^(\w+)\s*:] takes the key, the white space after it and the colon. *)
Lemma run_KEY_RE r tail st :
  run (KEY_RE ++ r) 0 (key +:+ w1 +:+ ":" +:+ tail) st
  = star Space (run r) (String.length key + String.length w1 + 1) tail
      (close_group 1 (String.length key) (open_group 1 0 st)).
Proof.
  destruct key as [|a key']; [done|]. clear key_ne.
  simpl in key_word. apply andb_prop_elim in key_word as [Ha Hkey].
  change (KEY_RE ++ r) with
    (Bol :: GroupOpen 1 :: Plus Word :: GroupClose 1 :: Star Space
     :: One (Chr Char.COLON) :: Star Space :: r).
  rewrite run_Bol, run_GroupOpen, str_app_cons, run_Plus by done.
  rewrite star_commit; [|clear; intros b s' p st' Hb|done].
  2:{ rewrite run_GroupClose, run_Star, star_stop
        by by apply isword_not_space.
      by rewrite run_One_fail by by apply isword_not_colon. }
  assert (∀ p st', star Word
      (run (GroupClose 1 :: Star Space :: One (Chr Char.COLON)
            :: Star Space :: r)) p (w1 +:+ ":" +:+ tail) st'
    = run (GroupClose 1 :: Star Space :: One (Chr Char.COLON)
            :: Star Space :: r) p (w1 +:+ ":" +:+ tail) st') as ->.
  { intros p st'. destruct w1 as [|b w1'].
    - by rewrite str_app_nil_l.
    - rewrite str_app_cons. apply star_stop.
      simpl in w1_space. apply andb_prop_elim in w1_space as [Hb _].
      simpl. destruct (Char.isword b) eqn:Hw; [|done].
      apply Is_true_true_2, isword_not_space in Hw.
      by rewrite Hw in Hb. }
  rewrite run_GroupClose, run_Star.
  rewrite star_commit; [|clear; intros b s' p st' Hb|done].
  2:{ by rewrite run_One_fail by by apply isspace_not_colon. }
  change (":" +:+ tail) with (String ":" tail).
  rewrite star_stop by done. rewrite run_One by done.
  rewrite run_Star. f_equal. simpl. lia.
Qed.
End key.

Section line.
Import Re.
Context (key w1 w2 : string).
Hypothesis key_ne : key ≠ "".
Hypothesis key_word : Str.all Char.isword key.
Hypothesis w1_space : Str.all Char.isspace w1.
Hypothesis w2_space : Str.all Char.isspace w2.

Lemma quote_after_space q r a s p st :
  Char.isspace q = false → accepts Space a →
  run (One (Chr q) :: r) p (String a s) st = None.
Proof.
  intros Hq Ha. apply run_One_fail. simpl.
  destruct (Ascii.eqb_spec a q) as [->|]; [|done].
  simpl in Ha. by rewrite Hq in Ha.
Qed.

(** A quoted value: the text between the quote after the colon and the
    quote that ends the line. *)
Lemma match_QUOTED_RE q v :
  Char.isspace q = false → Ascii.eqb q Char.LF = false →
  v ≠ "" → Str.all (accepts Dot) v →
  ∃ m, match_ (QUOTED_RE q)
         (key +:+ w1 +:+ ":" +:+ w2 +:+ String q (v +:+ String q ""))
       = Some m
       ∧ group m 1 = key ∧ group m 2 = v.
Proof.
  intros Hq Hlf Hv Hdot. destruct v as [|b v']; [done|]. clear Hv.
  simpl in Hdot. apply andb_prop_elim in Hdot as [Hb Hdot].
  eexists. unfold match_, QUOTED_RE.
  rewrite run_KEY_RE by done.
  rewrite star_commit by (by intros; try apply quote_after_space).
  rewrite star_stop by done.
  rewrite run_One by (simpl; by rewrite Ascii.eqb_refl).
  rewrite run_GroupOpen, (str_app_cons b v'), run_Plus by done.
  rewrite star_Dot_quote by done.
  split; [reflexivity|]. unfold group. simpl. split.
  - by apply (slice_app_mid _ _ "").
  - match goal with
    | |- Str.slice _ _ ?l = _ =>
        replace l with
          ((key +:+ w1 +:+ ":" +:+ w2 +:+ String q "")
           +:+ String b v' +:+ String q "")
          by (by rewrite !str_app_assoc)
    end.
    apply slice_app_mid; rewrite ?str_length_app; simpl; lia.
Qed.

(** The same line without quotes in the pattern: the value is what comes
    after the white space, to the end of the line. *)
Lemma match_BARE_RE b v :
  Char.isspace b = false → Str.all (accepts Dot) (String b v) →
  ∃ m, match_ BARE_RE (key +:+ w1 +:+ ":" +:+ w2 +:+ String b v) = Some m
       ∧ group m 1 = key ∧ group m 2 = String b v.
Proof.
  intros Hb Hdot.
  simpl in Hdot. apply andb_prop_elim in Hdot as [Hb' Hdot].
  eexists. unfold match_, BARE_RE.
  rewrite run_KEY_RE by done.
  assert (∀ p st, star Space
              (run [GroupOpen 2; Plus Dot; GroupClose 2; Eol]) p
              (String b v) st
            = Some (close_group 2 (S p + String.length v)
                      (open_group 2 p st))) as Hrest.
  { intros p st. rewrite star_stop by done.
    by rewrite run_GroupOpen, run_Plus, star_Dot_Eol by done. }
  rewrite star_keep by (try done; by rewrite Hrest).
  rewrite Hrest.
  split; [reflexivity|]. unfold group. simpl. split.
  - by apply (slice_app_mid _ _ "").
  - match goal with
    | |- Str.slice _ _ ?l = _ =>
        replace l with
          ((key +:+ w1 +:+ ":" +:+ w2) +:+ String b v +:+ "")
          by (by rewrite !str_app_assoc, str_app_nil_r)
    end.
    apply slice_app_mid; rewrite ?str_length_app; simpl; lia.
Qed.

End line.

Lemma DQUOTE_not_space : Char.isspace Char.DQUOTE = false.
Proof. done. Qed.

Lemma SQUOTE_not_space : Char.isspace Char.SQUOTE = false.
Proof. done. Qed.

Lemma at_eol_no_LF s :
  Re.at_eol s → Str.all (Re.accepts Re.Dot) s → s = "".
Proof.
  destruct s as [|a [|b s]]; simpl; try done.
  by destruct (Ascii.eqb a Char.LF).
Qed.

(** The lines the quoted pattern matches, among the lines without a line
    feed: a key, a colon with white space around it, and a text between
    two quotes that is not empty. *)
Lemma QUOTED_RE_shape q line :
  Str.all (Re.accepts Re.Dot) line →
  Re.matches (QUOTED_RE q) 0 line →
  ∃ key w1 w2 v,
    line = key +:+ w1 +:+ ":" +:+ w2 +:+ String q (v +:+ String q "")
    ∧ key ≠ "" ∧ Str.all Char.isword key
    ∧ Str.all Char.isspace w1 ∧ Str.all Char.isspace w2
    ∧ v ≠ "" ∧ Str.all (Re.accepts Re.Dot) v.
Proof.
  intros Hline (_ & a & w & s & -> & Ha & Hw
                 & w1 & s1 & -> & Hw1
                 & a1 & s2 & -> & ->%accepts_Chr
                 & w2 & s3 & -> & Hw2
                 & a2 & s4 & -> & ->%accepts_Chr
                 & b & v & s5 & -> & Hb & Hv
                 & a3 & s6 & -> & ->%accepts_Chr & Heol & _).
  assert (s6 = "") as ->.
  { apply at_eol_no_LF; [done|].
    change (Is_true (Str.all (Re.accepts Re.Dot)
      (String a w +:+ w1 +:+ String Char.COLON "" +:+ w2
       +:+ String q "" +:+ String b v +:+ String q "" +:+ s6))) in Hline.
    rewrite !str_all_app in Hline.
    repeat (apply andb_prop_elim in Hline as [_ Hline]). done. }
  exists (String a w), w1, w2, (String b v).
  split; [done|]. split; [done|].
  split; [simpl; by apply andb_prop_intro|].
  do 3 (split; [done|]). simpl. by apply andb_prop_intro.
Qed.

(** ** C7: the value of a quoted line *)


(** Every line of [splitlines] is without a line feed, so the theorems
    about a line apply to every line of a block. *)
Lemma str_all_rev_app p s1 s2 :
  Str.all p (String.rev_app s1 s2) = Str.all p s1 && Str.all p s2.
Proof.
  revert s2. induction s1 as [|a s1 IH]; intros s2; simpl; [done|].
  rewrite IH. simpl. by destruct (p a), (Str.all p s1).
Qed.

Lemma str_all_rev p s : Str.all p (String.rev s) = Str.all p s.
Proof. unfold String.rev. rewrite str_all_rev_app. simpl. apply andb_true_r. Qed.

Lemma not_linebreak_Dot a : Char.islinebreak a = false → Re.accepts Re.Dot a.
Proof. destruct a as [[] [] [] [] [] [] [] []]; by vm_compute. Qed.

Lemma splitlines_go_no_LF n : ∀ s cur,
  String.length s < n →
  Str.all (Re.accepts Re.Dot) (default "" cur) →
  Forall (λ l, Str.all (Re.accepts Re.Dot) l) (Str.splitlines_go cur s).
Proof.
  induction n as [|n IH]; intros s cur Hlen Hcur; [lia|].
  destruct s as [|a s]; simpl.
  - destruct cur; repeat constructor. by rewrite str_all_rev.
  - simpl in Hlen. destruct (Char.islinebreak a) eqn:Ha.
    + constructor; [by rewrite str_all_rev|].
      apply IH; [|done]. destruct s as [|b s]; [simpl in *; lia|].
      destruct (_ && _); simpl in *; lia.
    + apply IH; [lia|]. simpl.
      apply andb_prop_intro. split; [|done]. by apply not_linebreak_Dot.
Qed.

Lemma splitlines_no_LF s :
  Forall (λ l, Str.all (Re.accepts Re.Dot) l) (Str.splitlines s).
Proof. by apply (splitlines_go_no_LF (S (String.length s))); [lia|]. Qed.

(** ** C10: a value that is a pair of quotes *)


(** ** Examples *)

Example scenario_document :
  readme_of scenario_dir = 
    take 9 (readme_lines ∅ [] 1)
    ++ [""; "### Languages & Paradigms"; "";
        "- [Go Internals](a.md) — Deep dive"]
    ++ drop 9 empty_readme
  ∧ out_stderr (generate_readme scenario_dir)
    = ["warning: b.md has no front matter, skipping"].
Proof. split; by vm_compute. Qed.

Example fruit_order :
  filter is_bullet (readme_of fruit_dir)
  = ["- [Apple](2.md) — red"; "- [banana](1.md) — yellow";
     "- [cherry](3.md) — dark"].
Proof. by vm_compute. Qed.

Example mixed_order :
  order_categories (rendered_groups mixed_dir)
  = ["APIs & Protocols"; "Infrastructure"; "API"; "ZZZ-Custom"; "api"].
Proof. by vm_compute. Qed.

Lemma required_field_gating_witness :
  (has_entry (sort_groups (categories (collect scenario_dir))) "a.md"
   ↔ has_required (parse_front_matter (read scenario_dir "a.md")))
  ∧ (has_entry (sort_groups (categories (collect scenario_dir))) "b.md"
     ↔ has_required (parse_front_matter (read scenario_dir "b.md"))).
Proof.
  split; apply required_field_gating; split; by_computation.
Defined.




Example empty_quoted_fields_accepted :
  classify quotes_dir "q.md"
  = Accepted two_quotes (Entry two_quotes two_quotes "q.md").
Proof. by vm_compute. Qed.

(** ** C6 and C7 as the specification states them *)



(** * Further properties of the run *)

(** ** Files that play no part *)

Section agree_md.
Context (dir1 dir2 : directory).
Hypothesis agree :
  ∀ f, is_md f → f ∉ EXCLUDED_FILES → dir2 !! f = dir1 !! f.

Lemma candidates_agree_md :
  filter (.∉ EXCLUDED_FILES) (md_files dir2)
  = filter (.∉ EXCLUDED_FILES) (md_files dir1).
Proof.
  apply (StronglySorted_unique String.le).
  - apply StronglySorted_filter_le, md_files_sorted.
  - apply StronglySorted_filter_le, md_files_sorted.
  - apply NoDup_Permutation; try apply NoDup_filter, NoDup_md_files.
    intros f. rewrite !list_elem_of_filter, !elem_of_md_files.
    split; intros (Hex & Hmd & Hin); (split; [done|split; [done|]]).
    + by rewrite <-agree.
    + by rewrite agree.
Qed.

Lemma collect_agree_md : collect dir2 = collect dir1.
Proof.
  unfold collect.
  rewrite (foldl_collect_file_filter dir2), (foldl_collect_file_filter dir1).
  rewrite candidates_agree_md.
  assert (Forall (λ f, is_md f ∧ f ∉ EXCLUDED_FILES)
            (filter (.∉ EXCLUDED_FILES) (md_files dir1))) as Hall.
  { apply Forall_forall. intros f [Hex Hin]%list_elem_of_filter.
    by apply elem_of_md_files in Hin as [? _]. }
  generalize (Collected ∅ []).
  induction Hall as [|f l [Hmd Hex] _ IH]; intros st; [done|].
  simpl. rewrite <-IH. f_equal.
  rewrite !collect_file_classify. unfold classify, read.
  by rewrite agree.
Qed.
End agree_md.

(** X1.  A file named README.md or CLAUDE.md plays no part in a run,
    whatever it holds: it gets no Entry and no warning, and writing any
    text to it, or removing it, leaves the document and the warnings as
    they were. *)
Theorem excluded_files_play_no_part (dir : directory) (f : string) :
  f ∈ EXCLUDED_FILES →
  ¬ has_entry (rendered_groups dir) f
  ∧ diagnostic dir f = None
  ∧ (∀ text, readme_of (<[f := text]> dir) = readme_of dir
             ∧ out_stderr (generate_readme (<[f := text]> dir))
               = out_stderr (generate_readme dir))
  ∧ readme_of (delete f dir) = readme_of dir
  ∧ out_stderr (generate_readme (delete f dir))
    = out_stderr (generate_readme dir).
Proof.
  intros Hex.
  assert (classify dir f = Excluded) as Hc.
  { unfold classify. by rewrite decide_True. }
  split; [|split; [|split; [|split]]].
  - unfold rendered_groups.
    rewrite has_entry_sort_groups, has_entry_collect.
    intros (_ & c & e & H). by rewrite Hc in H.
  - unfold diagnostic. by rewrite Hc.
  - intros text.
    assert (∀ g, g ∉ EXCLUDED_FILES → <[f := text]> dir !! g = dir !! g)
      as Hag.
    { intros g Hg. apply lookup_insert_ne. by intros ->. }
    split; [by apply readme_of_agree|].
    unfold generate_readme. cbn [out_stderr].
    by rewrite (collect_agree dir _ Hag).
  - apply readme_of_agree. intros g Hg. apply lookup_delete_ne. by intros ->.
  - unfold generate_readme. cbn [out_stderr].
    rewrite (collect_agree dir (delete f dir)); [done|].
    intros g Hg. apply lookup_delete_ne. by intros ->.
Qed.

(** X2.  A file whose name does not end in .md, or starts with a dot, plays
    no part in a run: writing any text to it, or removing it, leaves the
    document and the warnings as they were. *)
Theorem other_files_play_no_part (dir : directory) (name : string) :
  ¬ is_md name →
  (∀ text, readme_of (<[name := text]> dir) = readme_of dir
           ∧ out_stderr (generate_readme (<[name := text]> dir))
             = out_stderr (generate_readme dir))
  ∧ readme_of (delete name dir) = readme_of dir
  ∧ out_stderr (generate_readme (delete name dir))
    = out_stderr (generate_readme dir).
Proof.
  intros Hname.
  assert (∀ text g, is_md g → g ∉ EXCLUDED_FILES →
            <[name := text]> dir !! g = dir !! g) as Hins.
  { intros text g Hg _. apply lookup_insert_ne. by intros ->. }
  assert (∀ g, is_md g → g ∉ EXCLUDED_FILES →
            delete name dir !! g = dir !! g) as Hdel.
  { intros g Hg _. apply lookup_delete_ne. by intros ->. }
  unfold generate_readme, readme_of. cbn [out_stderr].
  split; [|split].
  - intros text. by rewrite (collect_agree_md dir _ (Hins text)).
  - by rewrite (collect_agree_md dir _ Hdel).
  - by rewrite (collect_agree_md dir _ Hdel).
Qed.

(** ** The listing and the groups *)

(** X3.  The listing holds exactly the names of the directory that end in
    .md and do not start with a dot, each once, in ascending order of
    their strings. *)
Theorem listing_is_sorted_and_exact (dir : directory) :
  StronglySorted String.le (md_files dir)
  ∧ NoDup (md_files dir)
  ∧ ∀ f, f ∈ md_files dir ↔ is_md f ∧ is_Some (dir !! f).
Proof.
  split; [apply md_files_sorted|]. split; [apply NoDup_md_files|].
  apply elem_of_md_files.
Qed.

Lemma classify_Accepted_inv dir f c e :
  classify dir f = Accepted c e ↔
  (f ∉ EXCLUDED_FILES) ∧ filename e = f
  ∧ ∃ fm, parse_front_matter (read dir f) = Some fm
      ∧ fm !! "title" = Some (title e) ∧ fm !! "category" = Some c
      ∧ fm !! "description" = Some (description e)
      ∧ title e ≠ "" ∧ c ≠ "" ∧ description e ≠ "".
Proof.
  unfold classify. split.
  - intros H. destruct (decide (f ∈ EXCLUDED_FILES)); [done|].
    destruct (parse_front_matter (read dir f)) as [fm|]; [|done].
    destruct (fm !! "title") as [[|a t]|] eqn:Ht; try done;
      destruct (fm !! "category") as [[|b c']|] eqn:Hcat; try done;
      destruct (fm !! "description") as [[|x d]|] eqn:Hd; try done.
    simplify_eq. do 2 (split; [done|]). exists fm. by rewrite Ht, Hcat, Hd.
  - intros (Hex & Hf & fm & -> & Ht & Hc & Hd & ? & ? & ?).
    rewrite decide_False, Ht, Hc, Hd by done.
    destruct e as [t d f']; simpl in *. subst f'.
    by destruct t, c, d.
Qed.

Lemma elem_of_rendered_group dir c e :
  e ∈ group_of (rendered_groups dir) c
  ↔ ∃ f, f ∈ md_files dir ∧ classify dir f = Accepted c e.
Proof.
  assert (e ∈ group_of (rendered_groups dir) c
          ↔ e ∈ omap (accept dir c) (md_files dir)) as ->.
  { rewrite <-collect_group.
    unfold rendered_groups, sort_groups, group_of. rewrite lookup_fmap.
    destruct (categories (collect dir) !! c) as [g|]; simpl; [|done].
    unfold sort_entries. by rewrite elem_of_sorted_by. }
  rewrite list_elem_of_omap. unfold accept.
  apply exist_proper. intros f. apply and_iff_compat_l.
  destruct (classify dir f) as [| | |c' e']; try naive_solver.
  case_decide; naive_solver.
Qed.

(** X4.  The rendered group of a category holds exactly the Entries of the
    candidate files whose front matter names that category: the title and
    the description of an Entry are the values parsed from its file, its
    file name is the file's, and the three values are not empty. *)
Theorem group_holds_its_category (dir : directory) (c : string) (e : entry) :
  e ∈ group_of (rendered_groups dir) c ↔
  candidate dir (filename e)
  ∧ ∃ fm, parse_front_matter (read dir (filename e)) = Some fm
      ∧ fm !! "title" = Some (title e) ∧ fm !! "category" = Some c
      ∧ fm !! "description" = Some (description e)
      ∧ title e ≠ "" ∧ c ≠ "" ∧ description e ≠ "".
Proof.
  rewrite elem_of_rendered_group. unfold candidate. split.
  - intros (f & Hin & Hc).
    by apply classify_Accepted_inv in Hc as (Hex & <- & Hfm).
  - intros ([Hin Hex] & Hfm). exists (filename e). split; [done|].
    by apply classify_Accepted_inv.
Qed.

Lemma NoDup_CATEGORY_ORDER : NoDup CATEGORY_ORDER.
Proof. apply (bool_decide_unpack _). by vm_compute. Qed.

Lemma elem_of_order_categories cats c :
  c ∈ order_categories cats ↔ c ∈ dom cats.
Proof.
  unfold order_categories, Str.sorted.
  rewrite elem_of_app, list_elem_of_filter, elem_of_sorted_by.
  rewrite elem_of_elements, elem_of_difference, elem_of_list_to_set.
  destruct (decide (c ∈ CATEGORY_ORDER)); naive_solver.
Qed.

Lemma NoDup_order_categories cats : NoDup (order_categories cats).
Proof.
  unfold order_categories, Str.sorted. apply NoDup_app. split; [|split].
  - apply NoDup_filter, NoDup_CATEGORY_ORDER.
  - intros c [_ Hc]%list_elem_of_filter.
    rewrite elem_of_sorted_by, elem_of_elements, elem_of_difference.
    rewrite elem_of_list_to_set. naive_solver.
  - rewrite sorted_by_Permutation. apply NoDup_elements.
Qed.

(** X5.  Every category with an Entry has its section, once; a section
    has at least one Entry; and a category without an Entry has none. *)
Theorem sections_are_the_present_categories (dir : directory) :
  NoDup (order_categories (rendered_groups dir))
  ∧ (∀ c, c ∈ order_categories (rendered_groups dir)
          ↔ ∃ e, e ∈ group_of (rendered_groups dir) c)
  ∧ (∀ c, c ∈ order_categories (rendered_groups dir) →
          group_of (rendered_groups dir) c ≠ []).
Proof.
  assert (∀ c, c ∈ order_categories (rendered_groups dir)
               ↔ ∃ e, e ∈ group_of (rendered_groups dir) c) as Hiff.
  { intros c. rewrite elem_of_order_categories, rendered_groups_dom.
    setoid_rewrite elem_of_rendered_group. naive_solver. }
  split; [apply NoDup_order_categories|]. split; [done|].
  intros c [e He]%Hiff Hnil. rewrite Hnil in He. by apply elem_of_nil in He.
Qed.

(** ** What the document holds *)

Lemma filter_bullet_readme dir :
  filter is_bullet (readme_of dir)
  = concat ((λ c, bullet <$> group_of (rendered_groups dir) c)
              <$> order_categories (rendered_groups dir)).
Proof.
  rewrite unfold_readme_of. unfold readme_lines.
  rewrite !filter_app, filter_bullet_sections.
  match goal with
  | |- filter _ ?hd ++ _ ++ filter _ ?tl = _ =>
      replace (filter is_bullet hd) with (@nil string) by reflexivity;
      replace (filter is_bullet tl) with (@nil string) by reflexivity
  end.
  by rewrite app_nil_r.
Qed.

Lemma concat_fmap_app_Permutation {A B} (F G : A → list B) (cs : list A) :
  concat ((λ c, F c ++ G c) <$> cs)
  ≡ₚ concat (F <$> cs) ++ concat (G <$> cs).
Proof.
  induction cs as [|c cs IH]; [done|].
  rewrite !fmap_cons, !concat_cons, IH.
  rewrite <-!app_assoc. apply Permutation_app_head.
  rewrite !app_assoc. apply Permutation_app_tail, Permutation_app_comm.
Qed.

Section partition.
Context (dir : directory).

(** The Entry of a file, when it is accepted. *)
Let entry_of (f : string) : option entry :=
  match classify dir f with
  | Accepted _ e => Some e
  | _ => None
  end.

Lemma accept_one_category cs f :
  NoDup cs →
  (∀ c e, classify dir f = Accepted c e → c ∈ cs) →
  concat ((λ c, option_list (accept dir c f)) <$> cs)
  = option_list (entry_of f).
Proof.
  unfold accept, entry_of.
  destruct (classify dir f) as [| | |c' e] eqn:Hc;
    try (intros _ _; induction cs as [|c cs IH]; [done|];
         by rewrite fmap_cons, concat_cons, IH).
  intros Hnd Hin. specialize (Hin c' e eq_refl).
  induction Hnd as [|c cs Hc' Hnd IH]; [by apply elem_of_nil in Hin|].
  rewrite fmap_cons, concat_cons.
  destruct (decide (c' = c)) as [->|Hne]; simpl.
  - f_equal. clear IH Hin. induction cs as [|c1 cs IH]; [done|].
    rewrite fmap_cons, concat_cons.
    apply not_elem_of_cons in Hc' as [? ?].
    apply NoDup_cons in Hnd as [? ?].
    rewrite decide_False by done. simpl. by apply IH.
  - apply IH. apply elem_of_cons in Hin as [?|?]; done.
Qed.

Lemma groups_partition_the_accepted cs l :
  NoDup cs →
  (∀ f c e, f ∈ l → classify dir f = Accepted c e → c ∈ cs) →
  concat ((λ c, omap (accept dir c) l) <$> cs) ≡ₚ omap entry_of l.
Proof.
  intros Hnd. induction l as [|f l IH]; intros Hin.
  { clear Hnd Hin. simpl. induction cs as [|c cs IHcs]; [done|].
    by rewrite fmap_cons, concat_cons. }
  assert (concat ((λ c, omap (accept dir c) (f :: l)) <$> cs)
          = concat ((λ c, option_list (accept dir c f)
                          ++ omap (accept dir c) l) <$> cs)) as ->.
  { f_equal. apply list_fmap_ext. intros i c Hi. simpl.
    by destruct (accept dir c f). }
  rewrite concat_fmap_app_Permutation, accept_one_category, IH.
  - simpl. by destruct (entry_of f).
  - intros g c e Hg. apply Hin. by right.
  - done.
  - intros c e. apply Hin. by left.
Qed.

Lemma accepted_entries_snd :
  (accepted_entries dir).*2 = omap entry_of (md_files dir).
Proof.
  unfold accepted_entries, entry_of.
  induction (md_files dir) as [|f l IH]; [done|]. simpl.
  destruct (classify dir f); simpl; try f_equal; exact IH.
Qed.

Lemma rendered_entries_Permutation :
  concat (group_of (rendered_groups dir)
            <$> order_categories (rendered_groups dir))
  ≡ₚ (accepted_entries dir).*2.
Proof.
  rewrite accepted_entries_snd.
  rewrite <-(groups_partition_the_accepted
               (order_categories (rendered_groups dir)) (md_files dir)).
  - induction (order_categories (rendered_groups dir)) as [|c cs IH];
      [done|].
    rewrite !fmap_cons, !concat_cons, IH.
    apply Permutation_app_tail. rewrite <-collect_group.
    unfold rendered_groups, sort_groups, group_of. rewrite lookup_fmap.
    destruct (categories (collect dir) !! c) as [g|]; simpl; [|done].
    apply sorted_by_Permutation.
  - apply NoDup_order_categories.
  - intros f c e Hf Hc.
    apply elem_of_order_categories, rendered_groups_dom. eauto.
Qed.
End partition.

Lemma concat_fmap_bullet dir :
  concat ((λ c, bullet <$> group_of (rendered_groups dir) c)
            <$> order_categories (rendered_groups dir))
  = bullet <$> concat (group_of (rendered_groups dir)
                         <$> order_categories (rendered_groups dir)).
Proof.
  induction (order_categories (rendered_groups dir)) as [|c cs IH]; [done|].
  by rewrite !fmap_cons, !concat_cons, fmap_app, IH.
Qed.

Lemma total_of_accepted dir : total_of dir = length (accepted_entries dir).
Proof.
  unfold total_of.
  rewrite <-length_bullets, concat_fmap_bullet, length_fmap.
  by rewrite rendered_entries_Permutation, length_fmap.
Qed.

(** X6.  Every accepted file has its bullet in the document, once, and
    the document has no other bullet: the bullets of the document are
    those of the accepted Entries in some order, and the number read in
    the Overview sentence, the seventh line, is the number of accepted
    files. *)
Theorem bullets_are_the_accepted_files (dir : directory) :
  filter is_bullet (readme_of dir) ≡ₚ bullet <$> (accepted_entries dir).*2
  ∧ ∃ sentence,
      readme_of dir !! 6 = Some sentence
      ∧ shown_count sentence = Some (length (accepted_entries dir)).
Proof.
  split.
  - rewrite filter_bullet_readme, concat_fmap_bullet.
    by rewrite rendered_entries_Permutation.
  - rewrite <-total_of_accepted. apply shown_count_readme.
Qed.

Lemma omap_cons_app {A B} (f : A → option B) x l :
  omap f (x :: l) = option_list (f x) ++ omap f l.
Proof. simpl. by destruct (f x). Qed.

Lemma length_option_list {A} (o : option A) :
  length (option_list o) = match o with Some _ => 1 | None => 0 end.
Proof. by destruct o. Qed.

Lemma counted_or_warned dir l :
  length (filter (.∉ EXCLUDED_FILES) l)
  = length (omap (λ f, match classify dir f with
                       | Accepted c e => Some (c, e)
                       | _ => None
                       end) l)
    + length (omap (diagnostic dir) l).
Proof.
  induction l as [|f l IH]; [done|].
  rewrite filter_cons, !omap_cons_app, !length_app.
  unfold diagnostic at 1.
  destruct (decide (f ∈ EXCLUDED_FILES)) as [Hex|Hex].
  - rewrite decide_False by (by intros ?).
    assert (classify dir f = Excluded) as ->.
    { unfold classify. by rewrite decide_True. }
    rewrite !length_option_list. cbv iota. lia.
  - rewrite decide_True by done.
    destruct (classify dir f) as [| | |c e] eqn:Hc;
      rewrite !length_option_list, ?length_cons; cbv iota; try lia.
    exfalso. unfold classify in Hc. rewrite decide_False in Hc by done.
    by repeat (case_match; simplify_eq).
Qed.

(** X7.  Every candidate file is either counted or warned about, never
    both and never neither: a candidate has an Entry exactly when it has
    no warning, and the number read in the Overview sentence, the seventh
    line, plus the number of warnings is the number of candidate files. *)
Theorem every_candidate_is_counted_or_warned (dir : directory) :
  (∀ f, candidate dir f →
        (has_entry (rendered_groups dir) f ↔ diagnostic dir f = None))
  ∧ ∃ sentence shown,
      readme_of dir !! 6 = Some sentence
      ∧ shown_count sentence = Some shown
      ∧ shown + length (out_stderr (generate_readme dir))
        = length (filter (.∉ EXCLUDED_FILES) (md_files dir)).
Proof.
  split.
  - intros f [Hin Hex]. unfold rendered_groups.
    rewrite has_entry_sort_groups, has_entry_collect. unfold diagnostic.
    destruct (classify dir f) as [| | |c e] eqn:Hc.
    + unfold classify in Hc. by rewrite decide_False in Hc by done;
        repeat (case_match; simplify_eq).
    + naive_solver.
    + naive_solver.
    + naive_solver.
  - destruct (shown_count_readme dir) as (sentence & Hline & Hshown).
    exists sentence, (total_of dir). do 2 (split; [done|]).
    rewrite total_of_accepted. unfold generate_readme. cbn [out_stderr].
    rewrite collect_stderr. symmetry. apply counted_or_warned.
Qed.

Lemma is_heading_section cats c :
  filter is_heading (section_lines cats c) = ["### " +:+ c].
Proof.
  unfold section_lines. rewrite filter_app.
  assert (filter is_heading (bullet <$> group_of cats c) = []) as ->.
  { induction (group_of cats c) as [|e g IH]; [done|].
    rewrite fmap_cons, filter_cons_False; [done|].
    unfold is_heading, Str.startswith, bullet. by intros ?. }
  rewrite app_nil_r.
  rewrite !filter_cons, filter_nil.
  rewrite decide_False by (by intros ?).
  rewrite decide_True; [done|].
  unfold is_heading, Str.startswith. simpl. by destruct c.
Qed.

(** X8.  The headings of level three of the document are the headings of
    the category sections, one per category, in the order of the
    categories; no other line of the document starts like one. *)
Theorem headings_are_the_categories (dir : directory) :
  filter is_heading (readme_of dir)
  = (λ c, "### " +:+ c) <$> order_categories (rendered_groups dir).
Proof.
  rewrite unfold_readme_of. unfold readme_lines. rewrite !filter_app.
  match goal with
  | |- filter _ ?hd ++ _ ++ filter _ ?tl = _ =>
      replace (filter is_heading hd) with (@nil string) by reflexivity;
      replace (filter is_heading tl) with (@nil string) by reflexivity
  end.
  rewrite app_nil_r. simpl.
  induction (order_categories (rendered_groups dir)) as [|c cs IH]; [done|].
  by rewrite !fmap_cons, concat_cons, filter_app, is_heading_section, IH.
Qed.

(** * Further properties of the parser *)

(** ** Prefixes and quotes *)

Lemma span_spec p s :
  s = (span p s).1 +:+ (span p s).2
  ∧ Str.all p (span p s).1 ∧ stops p (span p s).2.
Proof.
  induction s as [|a s (IH1 & IH2 & IH3)]; simpl; [done|].
  destruct (p a) eqn:Ha; simpl; [|done].
  rewrite Ha. simpl. split; [|done]. by rewrite str_app_cons, <-IH1.
Qed.

Lemma span_unique p w r :
  Str.all p w → stops p r → span p (w +:+ r) = (w, r).
Proof.
  intros Hw Hr. induction w as [|a w IH].
  - rewrite str_app_nil_l. destruct r as [|b r]; [done|]. simpl in *.
    by rewrite Hr.
  - rewrite str_app_cons. simpl in *.
    apply andb_prop_elim in Hw as [Ha Hw].
    rewrite (Is_true_true_1 _ Ha), IH by done. done.
Qed.

Lemma span_isspace_lstrip s : (span Char.isspace s).2 = Str.lstrip s.
Proof.
  induction s as [|a s IH]; simpl; [done|]. by destruct (Char.isspace a).
Qed.

Lemma lstrip_app w t :
  Str.all Char.isspace w → Str.lstrip (w +:+ t) = Str.lstrip t.
Proof.
  induction w as [|a w IH]; [done|]. rewrite str_app_cons. simpl.
  intros [Ha Hw]%andb_prop_elim. by rewrite (Is_true_true_1 _ Ha), IH.
Qed.

Lemma lstrip_stops s : stops Char.isspace s → Str.lstrip s = s.
Proof. destruct s as [|a s]; simpl; [done|]. by intros ->. Qed.

Lemma lstrip_all_space s : Str.all Char.isspace s → Str.lstrip s = "".
Proof.
  induction s as [|a s IH]; simpl; [done|].
  intros [Ha Hs]%andb_prop_elim. by rewrite (Is_true_true_1 _ Ha), IH.
Qed.

Lemma chop_last_snoc v b : chop_last (v +:+ String b "") = Some (v, b).
Proof.
  induction v as [|a v IH]; [done|]. rewrite str_app_cons. simpl.
  by rewrite IH.
Qed.

Lemma chop_last_Some s v b :
  chop_last s = Some (v, b) → s = v +:+ String b "".
Proof.
  revert v. induction s as [|a s IH]; intros v; simpl; [done|].
  destruct (chop_last s) as [[v' b']|] eqn:Hs.
  - intros [= <- <-]. rewrite str_app_cons. f_equal. by apply IH.
  - intros [= <- <-]. by destruct s as [|? s]; [|simpl in Hs;
      destruct (chop_last s) as [[? ?]|]].
Qed.

Lemma unquote_Some q t v :
  unquote q t = Some v ↔ t = String q (v +:+ String q "") ∧ v ≠ "".
Proof.
  unfold unquote. split.
  - destruct t as [|a t]; [done|].
    destruct (chop_last t) as [[v' b]|] eqn:Ht; [|done].
    destruct (Ascii.eqb_spec a q) as [->|]; [|done].
    destruct (Ascii.eqb_spec b q) as [->|]; [|done].
    destruct v' as [|c v']; simpl; [done|].
    intros [= <-]. by apply chop_last_Some in Ht as ->.
  - intros [-> Hv]. rewrite chop_last_snoc, !Ascii.eqb_refl.
    by destruct v.
Qed.

Lemma isspace_not_word a : Char.isspace a → Char.isword a = false.
Proof.
  intros Ha. destruct (Char.isword a) eqn:Hw; [|done].
  apply Is_true_true_2, isword_not_space in Hw. by rewrite Hw in Ha.
Qed.

Lemma split_key_Some line key tail :
  split_key line = Some (key, tail)
  ↔ ∃ w1, line = key +:+ w1 +:+ ":" +:+ tail
          ∧ key ≠ "" ∧ Str.all Char.isword key ∧ Str.all Char.isspace w1.
Proof.
  unfold split_key. split.
  - destruct (span_spec Char.isword line) as (H1 & H2 & _).
    destruct (span_spec Char.isspace (span Char.isword line).2)
      as (H3 & H4 & _).
    destruct (span Char.isword line).1 as [|a k] eqn:Hk; [done|].
    simpl Str.is_empty. cbv iota.
    destruct (span Char.isspace (span Char.isword line).2).2
      as [|b t] eqn:Ht; [done|].
    destruct (Ascii.eqb_spec b Char.COLON) as [->|]; [|done].
    intros [= <- <-].
    exists (span Char.isspace (span Char.isword line).2).1.
    split; [|done]. rewrite H1 at 1. by rewrite H3 at 1.
  - intros (w1 & -> & Hk & Hkw & Hw1).
    assert (stops Char.isword (w1 +:+ ":" +:+ tail)) as Hstop.
    { destruct w1 as [|b w1]; [done|]. rewrite str_app_cons. simpl in *.
      apply andb_prop_elim in Hw1 as [Hb _]. by apply isspace_not_word. }
    rewrite (span_unique Char.isword key _ Hkw Hstop). simpl.
    rewrite (span_unique Char.isspace w1 (":" +:+ tail)) by done.
    by destruct key.
Qed.

Lemma KEY_RE_shape r line :
  Re.matches (KEY_RE ++ r) 0 line →
  ∃ key tail, split_key line = Some (key, tail).
Proof.
  intros (_ & a & w & s & -> & Ha & Hw
            & w1 & s1 & -> & Hw1
            & a1 & s2 & -> & ->%accepts_Chr & _).
  exists (String a w), s2. apply split_key_Some. exists w1.
  split; [done|]. split; [done|]. split; [|done].
  simpl. by apply andb_prop_intro.
Qed.

Lemma match_needs_key r line :
  split_key line = None → Re.match_ (KEY_RE ++ r) line = None.
Proof.
  intros Hnone. unfold Re.match_.
  destruct (Re.run (KEY_RE ++ r) 0 line Re.no_captures) eqn:Hrun; [|done].
  assert (Re.matches (KEY_RE ++ r) 0 line) as Hm.
  { apply (ReFacts.run_is_Some _ 0 line Re.no_captures). by rewrite Hrun. }
  apply KEY_RE_shape in Hm as (key & tail & Hs). by rewrite Hs in Hnone.
Qed.

(** ** The three patterns on a line with a key *)

Lemma strip_all_space s : Str.all Char.isspace s → Str.strip s = "".
Proof. intros Hs. unfold Str.strip. by rewrite lstrip_all_space. Qed.

Lemma strip_lstrip s : Str.strip (Str.lstrip s) = Str.strip s.
Proof.
  unfold Str.strip. f_equal.
  destruct (span_spec Char.isspace s) as (_ & _ & Hstop).
  rewrite span_isspace_lstrip in Hstop. by apply lstrip_stops.
Qed.

Lemma chop_last_is_Some s : s ≠ "" → ∃ v b, s = v +:+ String b "".
Proof.
  intros Hs. destruct (chop_last s) as [[v b]|] eqn:Hc.
  - exists v, b. by apply chop_last_Some.
  - destruct s as [|a s]; [done|]. simpl in Hc.
    by destruct (chop_last s) as [[? ?]|].
Qed.

Lemma is_empty_true s : Str.is_empty s = true → s = "".
Proof. by destruct s. Qed.

Lemma is_empty_false s : Str.is_empty s = false → s ≠ "".
Proof. by destruct s. Qed.

Lemma BARE_RE_shape line :
  Re.matches BARE_RE 0 line →
  ∃ key tail, split_key line = Some (key, tail) ∧ tail ≠ "".
Proof.
  intros (_ & a & w & s & -> & Ha & Hw
            & w1 & s1 & -> & Hw1
            & a1 & s2 & -> & ->%accepts_Chr
            & w2 & s3 & -> & Hw2
            & b & v & s4 & -> & _).
  exists (String a w), (w2 +:+ String b (v +:+ s4)). split.
  - apply split_key_Some. exists w1.
    split; [done|]. split; [done|]. split; [|done].
    simpl. by apply andb_prop_intro.
  - destruct w2; [done|]. by rewrite str_app_cons.
Qed.

Section tail.
Import Re.
Context (key w1 tail : string).
Hypothesis key_ne : key ≠ "".
Hypothesis key_word : Str.all Char.isword key.
Hypothesis w1_space : Str.all Char.isspace w1.
Hypothesis no_LF : Str.all (accepts Dot) (key +:+ w1 +:+ ":" +:+ tail).

Lemma tail_no_LF : Str.all (accepts Dot) tail.
Proof.
  pose proof no_LF as H. rewrite !str_all_app in H.
  by repeat (apply andb_prop_elim in H as [_ H]).
Qed.

Lemma split_key_line :
  split_key (key +:+ w1 +:+ ":" +:+ tail) = Some (key, tail).
Proof. apply split_key_Some. by exists w1. Qed.

(** A quoted pattern matches exactly when what follows the colon and its
    white space is quoted, and group 2 is then the text between the
    quotes. *)
Lemma match_QUOTED_unquote q :
  Char.isspace q = false → Ascii.eqb q Char.LF = false →
  match unquote q (Str.lstrip tail) with
  | Some v =>
      ∃ m, match_ (QUOTED_RE q) (key +:+ w1 +:+ ":" +:+ tail) = Some m
           ∧ group m 1 = key ∧ group m 2 = v
  | None => match_ (QUOTED_RE q) (key +:+ w1 +:+ ":" +:+ tail) = None
  end.
Proof.
  intros Hq Hlf.
  destruct (unquote q (Str.lstrip tail)) as [v|] eqn:Hu.
  - apply unquote_Some in Hu as [Ht Hv].
    destruct (span_spec Char.isspace tail) as (Hsplit & Hw2 & _).
    rewrite span_isspace_lstrip, Ht in Hsplit.
    pose proof tail_no_LF as Hdot. rewrite Hsplit in Hdot |- *.
    apply match_QUOTED_RE; try done.
    rewrite str_all_app in Hdot.
    apply andb_prop_elim in Hdot as [_ Hdot]. simpl in Hdot.
    apply andb_prop_elim in Hdot as [_ Hdot].
    rewrite str_all_app in Hdot. by apply andb_prop_elim in Hdot as [? _].
  - destruct (match_ (QUOTED_RE q) _) as [m|] eqn:Hm; [|done]. exfalso.
    assert (matches (QUOTED_RE q) 0 (key +:+ w1 +:+ ":" +:+ tail)) as Hs.
    { apply (ReFacts.run_is_Some _ 0 _ no_captures).
      unfold match_ in Hm. by destruct (run _ _ _ _). }
    apply QUOTED_RE_shape in Hs
      as (key' & w1' & w2' & v' & Heq & ? & ? & ? & Hw2' & Hv' & _);
      [|done].
    assert (split_key (key +:+ w1 +:+ ":" +:+ tail)
            = Some (key', w2' +:+ String q (v' +:+ String q ""))) as Hk.
    { rewrite Heq. apply split_key_Some. by exists w1'. }
    rewrite split_key_line in Hk. simplify_eq.
    rewrite lstrip_app, lstrip_stops in Hu by done.
    assert (unquote q (String q (v' +:+ String q "")) = Some v') as Hu'
      by by apply unquote_Some.
    by rewrite Hu' in Hu.
Qed.

(** The bare pattern matches exactly when something follows the colon,
    and group 2 then differs from it by white space at its ends only. *)
Lemma match_BARE_tail :
  if Str.is_empty tail
  then match_ BARE_RE (key +:+ w1 +:+ ":" +:+ tail) = None
  else ∃ m, match_ BARE_RE (key +:+ w1 +:+ ":" +:+ tail) = Some m
            ∧ group m 1 = key
            ∧ Str.strip (group m 2) = Str.strip tail.
Proof.
  destruct (Str.is_empty tail) eqn:Hemp.
  { apply is_empty_true in Hemp.
    destruct (match_ BARE_RE _) as [m|] eqn:Hm; [|done]. exfalso.
    assert (matches BARE_RE 0 (key +:+ w1 +:+ ":" +:+ tail)) as Hs.
    { apply (ReFacts.run_is_Some _ 0 _ no_captures).
      unfold match_ in Hm. by destruct (run _ _ _ _). }
    apply BARE_RE_shape in Hs as (key' & tail'' & Hk & Hne).
    rewrite split_key_line in Hk. by simplify_eq. }
  apply is_empty_false in Hemp.
  destruct (span_spec Char.isspace tail) as (Hsplit & Hw2 & Hstop).
  pose proof tail_no_LF as Hdot.
  destruct (span Char.isspace tail).2 as [|b t] eqn:Ht.
  - rewrite str_app_nil_r in Hsplit.
    assert (Str.all Char.isspace tail) as Hall by by rewrite Hsplit.
    destruct (chop_last_is_Some tail) as (w & a & Hwa); [done|].
    rewrite Hwa in Hall, Hdot |- *.
    rewrite str_all_app in Hall, Hdot.
    apply andb_prop_elim in Hall as [Hw Ha].
    apply andb_prop_elim in Hdot as [_ Ha'].
    simpl in Ha, Ha'. rewrite andb_true_r in Ha, Ha'.
    eexists. unfold match_, BARE_RE. rewrite run_KEY_RE by done.
    assert (∀ p st, star Space
              (run [GroupOpen 2; Plus Dot; GroupClose 2; Eol]) p
              (String a "") st
            = Some (close_group 2 (S p) (open_group 2 p st))) as Hlast.
    { intros p st. simpl.
      by rewrite (Is_true_true_1 _ Ha), (Is_true_true_1 _ Ha'). }
    rewrite star_keep by (try done; by rewrite Hlast).
    rewrite Hlast. split; [reflexivity|]. unfold group. simpl. split.
    + by apply (slice_app_mid _ _ "").
    + match goal with
      | |- Str.strip (Str.slice _ _ ?l) = _ =>
          replace l with
            ((key +:+ w1 +:+ ":" +:+ w) +:+ String a "" +:+ "")
            by (by rewrite !str_app_assoc)
      end.
      rewrite slice_app_mid by (rewrite ?str_length_app; simpl; lia).
      rewrite !strip_all_space; [done| |].
      * rewrite str_all_app. apply andb_prop_intro. split; [done|].
        simpl. by rewrite andb_true_r.
      * simpl. by rewrite andb_true_r.
  - simpl in Hstop.
    destruct (match_BARE_RE key w1 (span Char.isspace tail).1
                key_ne key_word w1_space Hw2 b t) as (m & Hm & Hg1 & Hg2).
    { done. }
    { rewrite Hsplit, str_all_app in Hdot.
      by apply andb_prop_elim in Hdot as [_ ?]. }
    exists m. rewrite Hsplit at 1. split; [done|]. split; [done|].
    rewrite Hg2, <-Ht, span_isspace_lstrip. apply strip_lstrip.
Qed.
End tail.

(** ** A line, read directly *)

Lemma match_line_direct line :
  Str.all (Re.accepts Re.Dot) line →
  match direct_line line with
  | Some (k, v) =>
      ∃ m, match_line line = Some m
           ∧ Re.group m 1 = k ∧ Str.strip (Re.group m 2) = v
  | None => match_line line = None
  end.
Proof.
  intros Hdot. unfold direct_line.
  destruct (split_key line) as [[key tail]|] eqn:Hk.
  - apply split_key_Some in Hk as (w1 & -> & Hkey & Hkw & Hw1).
    pose proof (match_QUOTED_unquote key w1 tail Hkey Hkw Hw1 Hdot
                  Char.DQUOTE eq_refl eq_refl) as HD.
    pose proof (match_QUOTED_unquote key w1 tail Hkey Hkw Hw1 Hdot
                  Char.SQUOTE eq_refl eq_refl) as HS.
    pose proof (match_BARE_tail key w1 tail Hkey Hkw Hw1 Hdot) as HB.
    unfold match_line, DOUBLE_QUOTED_RE, SINGLE_QUOTED_RE.
    destruct (unquote Char.DQUOTE (Str.lstrip tail)) as [v|].
    { destruct HD as (m & -> & Hg1 & Hg2). exists m. by rewrite Hg2. }
    rewrite HD.
    destruct (unquote Char.SQUOTE (Str.lstrip tail)) as [v|].
    { destruct HS as (m & -> & Hg1 & Hg2). exists m. by rewrite Hg2. }
    rewrite HS. destruct (Str.is_empty tail); [done|].
    destruct HB as (m & -> & Hg1 & Hg2). by exists m.
  - unfold match_line, DOUBLE_QUOTED_RE, SINGLE_QUOTED_RE, QUOTED_RE, BARE_RE.
    by rewrite !match_needs_key.
Qed.

(** X9.  On a line that is ASCII and without a line feed, as every line of
    the block of an ASCII file is, the three regular expressions amount to
    this: the line is skipped unless
    it starts with a word, optional white space and a colon; the word is
    the key; the value is the text between quotes when what follows the
    colon, after white space, is a text of one character at least between
    two double quotes or two single quotes that ends the line, and else
    all that follows the colon, provided something does; white space at
    both ends of the value is dropped. *)
Theorem line_is_read_directly (line : string) :
  Str.isascii line →
  Str.all (Re.accepts Re.Dot) line →
  line_pair line = direct_line line
  ∧ ∀ fm, parse_line fm line =
          match direct_line line with
          | Some (k, v) => <[k := v]> fm
          | None => fm
          end.
Proof.
  intros _ Hdot. pose proof (match_line_direct line Hdot) as H.
  unfold line_pair, parse_line.
  destruct (direct_line line) as [[k v]|].
  - destruct H as (m & -> & -> & ->). done.
  - by rewrite H.
Qed.

Lemma parse_line_line_pair fm line :
  parse_line fm line =
    match line_pair line with
    | Some (k, v) => <[k := v]> fm
    | None => fm
    end.
Proof. unfold parse_line, line_pair. by destruct (match_line line). Qed.

(** X10.  When several lines of a block give the same key, the last of
    them decides: the value found under a key after a sequence of lines is
    the value of the last line that gives this key, and the value the
    mapping had before when no line gives it. *)
Theorem last_line_of_a_key_wins
    (fm : gmap string string) (lines : list string) (k : string) :
  foldl parse_line fm lines !! k =
    match last (filter (λ kv, kv.1 = k) (omap line_pair lines)) with
    | Some kv => Some kv.2
    | None => fm !! k
    end.
Proof.
  induction lines as [|line lines IH] using rev_ind; [done|].
  rewrite foldl_app, omap_app, filter_app. cbn [foldl].
  rewrite parse_line_line_pair, (omap_cons_app line_pair line []).
  destruct (line_pair line) as [[k' v]|].
  - change (option_list (Some (k', v)) ++ []) with [(k', v)].
    rewrite (filter_cons _ (k', v) []), filter_nil. cbn [fst].
    destruct (decide (k' = k)) as [->|Hne].
    + by rewrite last_snoc, lookup_insert_eq.
    + rewrite app_nil_r, lookup_insert_ne by done. apply IH.
  - replace (filter (λ kv : string * string, kv.1 = k) (option_list None ++ []))
      with (@nil (string * string)) by done.
    rewrite app_nil_r. apply IH.
Qed.

(** ** What a mapping can hold *)

Lemma rstrip_idemp s : Str.rstrip (Str.rstrip s) = Str.rstrip s.
Proof.
  induction s as [|a s IH]; [done|]. simpl.
  destruct (Str.is_empty (Str.rstrip s) && Char.isspace a) eqn:Hc; [done|].
  simpl. by rewrite IH, Hc.
Qed.

Lemma rstrip_stops s : stops Char.isspace s → stops Char.isspace (Str.rstrip s).
Proof.
  destruct s as [|a s]; simpl; [done|]. intros Ha.
  by rewrite Ha, andb_false_r.
Qed.

Lemma strip_idemp s : Str.strip (Str.strip s) = Str.strip s.
Proof.
  unfold Str.strip.
  destruct (span_spec Char.isspace s) as (_ & _ & Hstop).
  rewrite span_isspace_lstrip in Hstop.
  by rewrite (lstrip_stops (Str.rstrip _)), rstrip_idemp
    by by apply rstrip_stops.
Qed.

Lemma str_all_lstrip p s : Str.all p s → Str.all p (Str.lstrip s).
Proof.
  induction s as [|a s IH]; simpl; [done|].
  intros [Ha Hs]%andb_prop_elim.
  destruct (Char.isspace a); [by apply IH|].
  simpl. by apply andb_prop_intro.
Qed.

Lemma str_all_rstrip p s : Str.all p s → Str.all p (Str.rstrip s).
Proof.
  induction s as [|a s IH]; simpl; [done|].
  intros [Ha Hs]%andb_prop_elim.
  destruct (_ && _); [done|]. simpl. apply andb_prop_intro. auto.
Qed.

Lemma str_all_strip p s : Str.all p s → Str.all p (Str.strip s).
Proof. intros. by apply str_all_rstrip, str_all_lstrip. Qed.

Lemma direct_line_Some line k v :
  Str.all (Re.accepts Re.Dot) line →
  direct_line line = Some (k, v) →
  k ≠ "" ∧ Str.all Char.isword k
  ∧ Str.strip v = v ∧ Str.all (Re.accepts Re.Dot) v.
Proof.
  intros Hdot. unfold direct_line.
  destruct (split_key line) as [[key tail]|] eqn:Hk; [|done].
  apply split_key_Some in Hk as (w1 & -> & Hkey & Hkw & Hw1).
  pose proof (tail_no_LF key w1 tail Hdot) as Htail.
  assert (∀ q x, unquote q (Str.lstrip tail) = Some x →
                 Str.all (Re.accepts Re.Dot) x) as Hq.
  { intros q x [Hx _]%unquote_Some.
    apply (str_all_lstrip (Re.accepts Re.Dot)) in Htail.
    rewrite Hx in Htail. simpl in Htail.
    apply andb_prop_elim in Htail as [_ Htail].
    rewrite str_all_app in Htail. by apply andb_prop_elim in Htail as [? _]. }
  destruct (unquote Char.DQUOTE (Str.lstrip tail)) as [x|] eqn:HD.
  { intros [= <- <-]. do 2 (split; [done|]).
    split; [apply strip_idemp|]. by eapply str_all_strip, Hq. }
  destruct (unquote Char.SQUOTE (Str.lstrip tail)) as [x|] eqn:HS.
  { intros [= <- <-]. do 2 (split; [done|]).
    split; [apply strip_idemp|]. by eapply str_all_strip, Hq. }
  destruct (Str.is_empty tail); [done|].
  intros [= <- <-]. do 2 (split; [done|]).
  split; [apply strip_idemp|]. by apply str_all_strip.
Qed.

Lemma line_pair_direct line :
  Str.all (Re.accepts Re.Dot) line → line_pair line = direct_line line.
Proof.
  intros Hdot. pose proof (match_line_direct line Hdot) as H.
  unfold line_pair. destruct (direct_line line) as [[k v]|].
  - by destruct H as (m & -> & -> & ->).
  - by rewrite H.
Qed.

(** X11.  In every mapping the parser returns for a text that is ASCII, a
    key is a non-empty run of
    word characters (letters, digits, underscore), and a value has no white
    space at either end and no line feed. *)
Theorem keys_are_words_and_values_are_stripped
    (content : string) (fm : gmap string string) (k v : string) :
  Str.isascii content →
  parse_front_matter content = Some fm →
  fm !! k = Some v →
  k ≠ "" ∧ Str.all Char.isword k
  ∧ Str.strip v = v ∧ Str.all (Re.accepts Re.Dot) v.
Proof.
  intros _. unfold parse_front_matter.
  destruct (Re.match_ FRONT_MATTER_RE content) as [m|]; [|done].
  intros [= <-].
  pose proof (splitlines_no_LF (Re.group m 1)) as Hlines.
  assert (∀ k v, (∅ : gmap string string) !! k = Some v →
                 k ≠ "" ∧ Str.all Char.isword k
                 ∧ Str.strip v = v ∧ Str.all (Re.accepts Re.Dot) v) as Hgood.
  { intros k' v'. by rewrite lookup_empty. }
  revert Hgood. generalize (∅ : gmap string string). revert k v.
  induction Hlines as [|line lines Hline _ IH]; intros k v fm0 Hgood.
  { apply Hgood. }
  cbn [foldl]. apply IH. intros k' v'.
  rewrite parse_line_line_pair, line_pair_direct by done.
  destruct (direct_line line) as [[k1 v1]|] eqn:Hd; [|apply Hgood].
  destruct (decide (k1 = k')) as [->|Hne].
  - rewrite lookup_insert_eq. intros [= <-].
    by eapply direct_line_Some.
  - rewrite lookup_insert_ne by done. apply Hgood.
Qed.

(** ** A block given by its lines *)

Lemma rev_app_app s1 s2 : String.rev_app s1 s2 = String.rev s1 +:+ s2.
Proof.
  unfold String.rev. revert s2.
  induction s1 as [|a s1 IH]; intros s2; simpl; [done|].
  rewrite (IH (String a s2)), (IH (String a "")).
  by rewrite str_app_assoc.
Qed.

Lemma splitlines_go_line l : ∀ cur s,
  one_line l →
  Str.splitlines_go cur (l +:+ String Char.LF s)
  = (String.rev (default "" cur) +:+ l) :: Str.splitlines_go None s.
Proof.
  induction l as [|a l IH]; intros cur s Hl.
  - rewrite str_app_nil_l, str_app_nil_r. simpl. by destruct s.
  - rewrite str_app_cons. simpl in Hl |- *.
    apply andb_prop_elim in Hl as [Ha Hl].
    apply negb_prop_elim in Ha. apply Is_true_false_1 in Ha. rewrite Ha.
    rewrite IH by done. simpl. f_equal.
    unfold String.rev at 1. simpl.
    by rewrite rev_app_app, str_app_assoc.
Qed.

Lemma splitlines_unlines lines :
  Forall one_line lines → Str.splitlines (unlines lines) = lines.
Proof.
  unfold Str.splitlines. induction 1 as [|l lines Hl _ IH]; [done|].
  simpl unlines. change (Str.LF +:+ unlines lines)
    with (String Char.LF (unlines lines)).
  by rewrite splitlines_go_line, IH.
Qed.

Lemma one_line_no_LF l : one_line l → Str.all (Re.accepts Re.Dot) l.
Proof.
  unfold one_line. induction l as [|a l IH]; simpl; [done|].
  intros [Ha Hl]%andb_prop_elim. apply andb_prop_intro. split; [|auto].
  apply negb_prop_elim in Ha. apply not_linebreak_Dot.
  by apply Is_true_false_1.
Qed.

Section block.
Import Re.

(** What follows the block's first line feed in the pattern. *)
Let CLOSE : regex := lit "---" ++ [Star Space; One (Chr Char.LF)].
Let BODY_END : regex := One (Chr Char.LF) :: GroupClose 1 :: CLOSE.

Lemma star_Space_LF_pure s : ∀ pos st r,
  star Space (run [One (Chr Char.LF)]) pos s st = Some r → r = st.
Proof.
  induction s as [|a s IH]; intros pos st r; simpl; [done|].
  destruct (Char.isspace a).
  - destruct (star Space _ (S pos) s st) eqn:Hs.
    + intros [= <-]. by eapply IH.
    + destruct (Ascii.eqb a Char.LF); [by intros [= <-]|done].
  - destruct (Ascii.eqb a Char.LF); [by intros [= <-]|done].
Qed.

Lemma run_CLOSE pos w2 rest st :
  Str.all Char.isspace w2 →
  run CLOSE pos ("---" +:+ w2 +:+ Str.LF +:+ rest) st = Some st.
Proof.
  intros Hw2.
  change (run CLOSE pos ("---" +:+ w2 +:+ Str.LF +:+ rest) st)
    with (star Space (run [One (Chr Char.LF)]) (S (S (S pos)))
            (w2 +:+ String Char.LF rest) st).
  destruct (star Space _ _ _ st) as [r|] eqn:Hs.
  - f_equal. by eapply star_Space_LF_pure.
  - assert (is_Some (star Space (run [One (Chr Char.LF)]) (S (S (S pos)))
                       (w2 +:+ String Char.LF rest) st)) as [? Hsome];
      [|congruence].
    apply (ReFacts.star_is_Some Space (run [One (Chr Char.LF)])
             (matches [One (Chr Char.LF)])).
    { intros. apply ReFacts.run_is_Some. }
    exists w2, (String Char.LF rest). split; [done|]. split; [done|].
    simpl. exists Char.LF, rest. by rewrite Ascii.eqb_refl.
Qed.

Lemma spaces_before_LF l : ∀ w m s',
  Str.all (accepts Dot) l → Str.all Char.isspace w →
  l +:+ String Char.LF m = w +:+ String Char.LF s' →
  Str.all Char.isspace l.
Proof.
  induction l as [|a l IH]; intros w m s' Hl Hw Heq; [done|].
  rewrite str_app_cons in Heq. simpl in Hl.
  apply andb_prop_elim in Hl as [Ha Hl].
  destruct w as [|b w].
  - rewrite str_app_nil_l in Heq. simplify_eq. by vm_compute in Ha.
  - rewrite str_app_cons in Heq. simplify_eq. simpl in Hw |- *.
    apply andb_prop_elim in Hw as [Hb Hw].
    apply andb_prop_intro. split; [done|]. by eapply IH.
Qed.

Lemma run_CLOSE_fail pos l m st :
  Str.all (accepts Dot) l → is_delimiter l = false →
  run CLOSE pos (l +:+ String Char.LF m) st = None.
Proof.
  intros Hl Hd.
  destruct (run CLOSE pos (l +:+ String Char.LF m) st) as [r|] eqn:Hr;
    [|done].
  exfalso.
  assert (matches CLOSE pos (l +:+ String Char.LF m)) as Hm.
  { apply (ReFacts.run_is_Some _ pos _ st). by rewrite Hr. }
  destruct Hm as (a1 & s1 & Hs1 & ->%accepts_Chr
                  & a2 & s2 & -> & ->%accepts_Chr
                  & a3 & s3 & -> & ->%accepts_Chr
                  & w & s4 & -> & Hw
                  & a4 & s5 & -> & ->%accepts_Chr & _).
  destruct l as [|b1 [|b2 [|b3 l]]];
    rewrite ?str_app_cons, ?str_app_nil_l in Hs1; simplify_eq.
  simpl in Hl, Hd.
  apply (spaces_before_LF l w m s5) in Hl; [|done|done].
  by rewrite (Is_true_true_1 _ Hl) in Hd.
Qed.

(** The lazy repetition passes over a line that holds no line feed. *)
Lemma star_lazy_line l r : ∀ pos s st,
  Str.all (accepts Dot) l →
  star_lazy Any (run (One (Chr Char.LF) :: r)) pos (l +:+ s) st
  = star_lazy Any (run (One (Chr Char.LF) :: r)) (pos + String.length l) s st.
Proof.
  induction l as [|a l IH]; intros pos s st Hl.
  { by rewrite str_app_nil_l, Nat.add_0_r. }
  rewrite str_app_cons. simpl in Hl.
  apply andb_prop_elim in Hl as [Ha Hl].
  cbn [star_lazy].
  rewrite run_One_fail.
  2:{ simpl in *. by destruct (Ascii.eqb a Char.LF). }
  cbn [accepts]. rewrite IH by done. f_equal. simpl. lia.
Qed.

(** It stops at the line feed that the closing delimiter follows. *)
Lemma star_lazy_lines tailtext : ∀ lines l pos st,
  Str.all (accepts Dot) l →
  Forall (λ l', Str.all (accepts Dot) l') lines →
  Forall (λ l', is_delimiter l' = false) lines →
  (∀ p st', run CLOSE p tailtext st' = Some st') →
  star_lazy Any (run BODY_END) pos (unlines (l :: lines) +:+ tailtext) st
  = Some (close_group 1 (pos + String.length (unlines (l :: lines))) st).
Proof.
  induction lines as [|l' lines IH]; intros l pos st Hl Hls Hds Htail.
  - cbn [unlines]. rewrite str_app_nil_r, str_app_assoc.
    unfold BODY_END. rewrite star_lazy_line by done.
    change (Str.LF +:+ tailtext) with (String Char.LF tailtext).
    cbn [star_lazy]. rewrite run_One by done.
    rewrite run_GroupClose, Htail. do 2 f_equal.
    rewrite str_length_app. simpl. lia.
  - apply Forall_cons in Hls as [Hl' Hls].
    apply Forall_cons in Hds as [Hd' Hds].
    change (unlines (l :: l' :: lines))
      with (l +:+ Str.LF +:+ unlines (l' :: lines)).
    rewrite !str_app_assoc.
    unfold BODY_END. rewrite star_lazy_line by done.
    change (Str.LF +:+ unlines (l' :: lines) +:+ tailtext)
      with (String Char.LF (unlines (l' :: lines) +:+ tailtext)).
    cbn [star_lazy]. rewrite run_One by done.
    rewrite run_GroupClose.
    change (unlines (l' :: lines) +:+ tailtext)
      with ((l' +:+ Str.LF +:+ unlines lines) +:+ tailtext) at 1.
    rewrite !str_app_assoc.
    change (Str.LF +:+ unlines lines +:+ tailtext)
      with (String Char.LF (unlines lines +:+ tailtext)) at 1.
    rewrite run_CLOSE_fail by done.
    cbn [accepts]. fold BODY_END. rewrite IH by done. do 2 f_equal.
    rewrite !str_length_app. simpl. lia.
Qed.
(** The white space after the opening delimiter ends at the last line
    feed before a line that starts with something else. *)
Lemma star_Space_LF r w s x : ∀ pos st,
  Str.all Char.isspace w → stops Char.isspace s →
  run r (pos + String.length w + 1) s st = Some x →
  star Space (run (One (Chr Char.LF) :: r)) pos (w +:+ String Char.LF s) st
  = Some x.
Proof.
  induction w as [|a w IH]; intros pos st Hw Hs Hr.
  - rewrite str_app_nil_l. cbn [star accepts].
    replace (Char.isspace Char.LF) with true by done.
    assert (star Space (run (One (Chr Char.LF) :: r)) (S pos) s st = None)
      as ->.
    { destruct s as [|b s]; [done|]. simpl in Hs.
      rewrite star_stop by done. apply run_One_fail. simpl.
      destruct (Ascii.eqb_spec b Char.LF) as [->|]; done. }
    rewrite run_One by done. rewrite <-Hr. f_equal. simpl. lia.
  - rewrite str_app_cons. simpl in Hw.
    apply andb_prop_elim in Hw as [Ha Hw].
    cbn [star accepts]. rewrite (Is_true_true_1 _ Ha).
    rewrite (IH (S pos) st); [done..|]. rewrite <-Hr. f_equal. simpl. lia.
Qed.

Lemma run_FRONT_MATTER_RE w1 a l lines w2 rest :
  Str.all Char.isspace w1 → Str.all Char.isspace w2 →
  Char.isspace a = false →
  Forall (λ l', Str.all (accepts Dot) l') (String a l :: lines) →
  Forall (λ l', is_delimiter l' = false) lines →
  ∃ m, match_ FRONT_MATTER_RE (block_file w1 (String a l :: lines) w2 rest)
       = Some m
       ∧ group m 1 = unlines (String a l :: lines).
Proof.
  intros Hw1 Hw2 Ha [Hl Hls]%Forall_cons Hds.
  eexists. unfold match_, block_file.
  set (body := unlines (String a l :: lines)).
  set (tailtext := "---" +:+ w2 +:+ Str.LF +:+ rest).
  change (run FRONT_MATTER_RE 0
            ("---" +:+ w1 +:+ Str.LF +:+ body +:+ tailtext) no_captures)
    with (star Space
            (run (One (Chr Char.LF) :: GroupOpen 1 :: StarLazy Any
                  :: BODY_END)) 3
            (w1 +:+ String Char.LF (body +:+ tailtext)) no_captures).
  erewrite star_Space_LF; [| done | exact Ha | ].
  2:{ rewrite run_GroupOpen.
      change (run (StarLazy Any :: BODY_END))
        with (star_lazy Any (run BODY_END)).
      apply star_lazy_lines; [done..|].
      intros p st'. by apply run_CLOSE. }
  split; [reflexivity|]. subst body tailtext. unfold group. simpl.
  match goal with
  | |- Str.slice _ _ ?s = ?b =>
      replace s with (("---" +:+ w1 +:+ Str.LF) +:+ b
                      +:+ "---" +:+ w2 +:+ Str.LF +:+ rest)
        by (by rewrite !str_app_assoc)
  end.
  apply slice_app_mid; rewrite ?str_length_app; simpl; lia.
Qed.
End block.

(** The file of a block is parsed to the lines of the block, read in
    turn. *)
Lemma parse_block_file
    (w1 w2 rest : string) (a : ascii) (l : string) (lines : list string) :
  Str.all Char.isspace w1 → Str.all Char.isspace w2 →
  Char.isspace a = false →
  Forall one_line (String a l :: lines) →
  Forall (λ l', is_delimiter l' = false) lines →
  parse_front_matter (block_file w1 (String a l :: lines) w2 rest)
  = Some (foldl parse_line ∅ (String a l :: lines)).
Proof.
  intros Hw1 Hw2 Ha Hlines Hds.
  destruct (run_FRONT_MATTER_RE w1 a l lines w2 rest) as (m & Hm & Hg);
    try done.
  { eapply Forall_impl; [exact Hlines|]. apply one_line_no_LF. }
  unfold parse_front_matter. rewrite Hm, Hg.
  by rewrite splitlines_unlines.
Qed.

(** X12.  A file that starts with a block is parsed line by line, and what
    follows the block is not read.  The block is an opening delimiter
    (three hyphens, then white space only up to a line feed), lines that
    are ASCII, of which the first starts with a character that is not
    white space and the others are not a closing delimiter (three hyphens,
    then white space only), and a closing delimiter; a line holds no line
    boundary.  The mapping returned is the empty mapping after
    [parse_line] took each line in turn, whatever the rest of the file
    holds. *)
Theorem block_is_parsed_line_by_line
    (w1 w2 rest : string) (a : ascii) (l : string) (lines : list string) :
  Str.all Char.isspace w1 → Str.all Char.isspace w2 →
  Forall (λ l', Str.isascii l') (String a l :: lines) →
  Char.isspace a = false →
  Forall one_line (String a l :: lines) →
  Forall (λ l', is_delimiter l' = false) lines →
  parse_front_matter (block_file w1 (String a l :: lines) w2 rest)
  = Some (foldl parse_line ∅ (String a l :: lines))
  ∧ ∀ rest', parse_front_matter (block_file w1 (String a l :: lines) w2 rest')
             = parse_front_matter
                 (block_file w1 (String a l :: lines) w2 rest).
Proof.
  intros Hw1 Hw2 _ Ha Hlines Hds. split.
  - by apply parse_block_file.
  - intros rest'. by rewrite !parse_block_file.
Qed.

(** * Further properties of the document *)

(** ** Where an Entry stands *)

Lemma section_split (head tail before after bullets : list string)
    (x y z : string) :
  head ++ (before ++ (([x; y; z] ++ bullets) ++ after)) ++ tail
  = (head ++ before ++ [x]) ++ [y; z] ++ bullets ++ (after ++ tail).
Proof. by rewrite <-!app_assoc. Qed.

Lemma section_in_readme cats cs total c :
  c ∈ cs →
  ∃ pre post,
    readme_lines cats cs total
    = pre ++ ["### " +:+ c; ""] ++ (bullet <$> group_of cats c) ++ post.
Proof.
  intros (cs1 & cs2 & ->)%list_elem_of_split.
  unfold readme_lines. rewrite fmap_app, fmap_cons, concat_app, concat_cons.
  unfold section_lines at 2.
  eexists _, _. apply section_split.
Qed.

(** X13.  Every Entry is listed under the heading of its own category:
    the document holds the heading of the category, an empty line, and then
    the bullets of the Entries of that category and of no other, in the
    order of the group, the bullet of this Entry among them. *)
Theorem entry_is_listed_under_its_category
    (dir : directory) (c : string) (e : entry) :
  e ∈ group_of (rendered_groups dir) c →
  ∃ pre post,
    readme_of dir
    = pre ++ ["### " +:+ c; ""]
      ++ (bullet <$> group_of (rendered_groups dir) c) ++ post
    ∧ bullet e ∈ bullet <$> group_of (rendered_groups dir) c
    ∧ (post = [] ∨ ∃ post', post = "" :: post').
Proof.
  intros He.
  assert (c ∈ order_categories (rendered_groups dir)) as Hc.
  { apply elem_of_order_categories, rendered_groups_dom.
    apply elem_of_rendered_group in He as (f & ? & ?). eauto. }
  apply list_elem_of_split in Hc as (cs1 & cs2 & Hcs).
  rewrite unfold_readme_of, Hcs. unfold readme_lines.
  rewrite fmap_app, fmap_cons, concat_app, concat_cons.
  unfold section_lines at 2.
  eexists _, _.
  split; [|split].
  - apply section_split.
  - by apply list_elem_of_fmap_2.
  - right. destruct cs2 as [|c2 cs2]; simpl; eauto.
Qed.

Lemma code_eqb_CR a : (Char.code a =? 13) = Ascii.eqb a Char.CR.
Proof. destruct a as [[] [] [] [] [] [] [] []]; by vm_compute. Qed.

Lemma code_eqb_LF a : (Char.code a =? 10) = Ascii.eqb a Char.LF.
Proof. destruct a as [[] [] [] [] [] [] [] []]; by vm_compute. Qed.

Lemma universal_newlines_no_CR s : no_CR s → Str.universal_newlines s = s.
Proof.
  unfold no_CR. induction s as [|a s IH]; simpl; [done|].
  intros [Ha Hs]%andb_prop_elim. rewrite code_eqb_CR.
  apply negb_prop_elim, Is_true_false_1 in Ha. rewrite Ha. by rewrite IH.
Qed.

Lemma in_readme_of dir c e :
  e ∈ group_of (rendered_groups dir) c →
  bullet e ∈ readme_of dir ∧ ("### " +:+ c) ∈ readme_of dir.
Proof.
  intros He.
  assert (c ∈ order_categories (rendered_groups dir)) as Hc.
  { apply elem_of_order_categories, rendered_groups_dom.
    apply elem_of_rendered_group in He as (f & ? & ?). eauto. }
  rewrite unfold_readme_of.
  destruct (section_in_readme (rendered_groups dir) _
              (count_plans (rendered_groups dir)
                 (order_categories (rendered_groups dir))) c Hc)
    as (pre & post & ->).
  split.
  - apply elem_of_app. right. apply elem_of_app. right.
    apply elem_of_app. left. by apply list_elem_of_fmap_2.
  - apply elem_of_app. right. apply elem_of_app. left. by left.
Qed.

(** X14.  A plan file is listed.  Take a candidate file without a carriage
    return that starts with a block of ASCII lines as in X12.  When reading the lines of
    the block in turn leaves a title, a category and a description that are
    not empty, the file has an Entry with that title and description in the
    group of that category, the document holds the heading of the category
    and the bullet of the Entry, and no warning is printed for the file. *)
Theorem plan_file_is_listed
    (dir : directory) (f w1 w2 rest : string) (a : ascii) (l : string)
    (lines : list string) (t c d : string) :
  candidate dir f →
  dir !! f = Some (block_file w1 (String a l :: lines) w2 rest) →
  no_CR (block_file w1 (String a l :: lines) w2 rest) →
  Str.all Char.isspace w1 → Str.all Char.isspace w2 →
  Forall (λ l', Str.isascii l') (String a l :: lines) →
  Char.isspace a = false →
  Forall one_line (String a l :: lines) →
  Forall (λ l', is_delimiter l' = false) lines →
  foldl parse_line ∅ (String a l :: lines) !! "title" = Some t →
  foldl parse_line ∅ (String a l :: lines) !! "category" = Some c →
  foldl parse_line ∅ (String a l :: lines) !! "description" = Some d →
  t ≠ "" → c ≠ "" → d ≠ "" →
  Entry t d f ∈ group_of (rendered_groups dir) c
  ∧ bullet (Entry t d f) ∈ readme_of dir
  ∧ ("### " +:+ c) ∈ readme_of dir
  ∧ diagnostic dir f = None.
Proof.
  intros [Hin Hex] Hf Hcr Hw1 Hw2 _ Ha Hlines Hds Ht Hc Hd ? ? ?.
  assert (parse_front_matter (read dir f)
          = Some (foldl parse_line ∅ (String a l :: lines))) as Hp.
  { unfold read. rewrite Hf. simpl default.
    rewrite universal_newlines_no_CR by done.
    by apply parse_block_file. }
  assert (classify dir f = Accepted c (Entry t d f)) as Hcl.
  { apply classify_Accepted_inv. do 2 (split; [done|]).
    eexists. split; [exact Hp|]. done. }
  assert (Entry t d f ∈ group_of (rendered_groups dir) c) as He.
  { apply elem_of_rendered_group. eauto. }
  split; [done|].
  destruct (in_readme_of dir c _ He) as [? ?].
  do 2 (split; [done|]). unfold diagnostic. by rewrite Hcl.
Qed.

(** ** C10: fields given as empty quoted strings *)





(** ** Line endings *)

Section agree_read.
Context (dir1 dir2 : directory).
Hypothesis same_names : ∀ f, is_Some (dir2 !! f) ↔ is_Some (dir1 !! f).
Hypothesis same_text : ∀ f, read dir2 f = read dir1 f.

Lemma md_files_agree_read : md_files dir2 = md_files dir1.
Proof.
  apply (StronglySorted_unique String.le); try apply md_files_sorted.
  apply NoDup_Permutation; try apply NoDup_md_files.
  intros f. rewrite !elem_of_md_files. by rewrite same_names.
Qed.

Lemma collect_agree_read : collect dir2 = collect dir1.
Proof.
  unfold collect. rewrite md_files_agree_read.
  generalize (Collected ∅ []).
  induction (md_files dir1) as [|f l IH]; intros st; [done|].
  simpl. rewrite <-IH. f_equal.
  unfold collect_file. by rewrite same_text.
Qed.
End agree_read.

Lemma universal_newlines_crlf t :
  no_CR t → Str.universal_newlines (crlf t) = t.
Proof.
  unfold no_CR. induction t as [|a t IH]; simpl; [done|].
  intros [Ha Ht]%andb_prop_elim.
  apply negb_prop_elim, Is_true_false_1 in Ha.
  destruct (Ascii.eqb_spec a Char.LF) as [->|Hne].
  - simpl. by rewrite IH.
  - simpl. rewrite code_eqb_CR, Ha. by rewrite IH.
Qed.

(** X15.  Line endings do not matter.  The text of a file is read with
    carriage return and line feed turned into a line feed; so a file saved
    with such line endings gives the same document and the same warnings
    as the file with plain line feeds. *)
Theorem line_endings_do_not_matter (dir : directory) (f t : string) :
  no_CR t →
  read (<[f := crlf t]> dir) f = t
  ∧ readme_of (<[f := crlf t]> dir) = readme_of (<[f := t]> dir)
  ∧ out_stderr (generate_readme (<[f := crlf t]> dir))
    = out_stderr (generate_readme (<[f := t]> dir)).
Proof.
  intros Ht.
  assert (∀ g, read (<[f := crlf t]> dir) g = read (<[f := t]> dir) g)
    as Htext.
  { intros g. unfold read. destruct (decide (f = g)) as [->|Hne].
    - rewrite !lookup_insert_eq. simpl.
      by rewrite universal_newlines_crlf, universal_newlines_no_CR.
    - by rewrite !lookup_insert_ne. }
  assert (∀ g, is_Some (<[f := crlf t]> dir !! g)
               ↔ is_Some (<[f := t]> dir !! g)) as Hnames.
  { intros g. destruct (decide (f = g)) as [->|Hne].
    - rewrite !lookup_insert_eq. split; eauto.
    - by rewrite !lookup_insert_ne. }
  split; [|split].
  - unfold read. rewrite lookup_insert_eq. simpl.
    by apply universal_newlines_crlf.
  - unfold readme_of. by rewrite (collect_agree_read _ _ Hnames Htext).
  - unfold generate_readme. cbn [out_stderr].
    by rewrite (collect_agree_read _ _ Hnames Htext).
Qed.

(** ** Instances *)

Lemma excluded_files_play_no_part_witness :
  ¬ has_entry (rendered_groups scenario_dir) "CLAUDE.md"
  ∧ diagnostic scenario_dir "CLAUDE.md" = None
  ∧ (∀ text,
       readme_of (<["CLAUDE.md" := text]> scenario_dir)
       = readme_of scenario_dir
       ∧ out_stderr (generate_readme (<["CLAUDE.md" := text]> scenario_dir))
         = out_stderr (generate_readme scenario_dir))
  ∧ readme_of (delete "CLAUDE.md" scenario_dir) = readme_of scenario_dir
  ∧ out_stderr (generate_readme (delete "CLAUDE.md" scenario_dir))
    = out_stderr (generate_readme scenario_dir).
Proof.
  apply (excluded_files_play_no_part scenario_dir "CLAUDE.md").
  by_computation.
Defined.

Lemma other_files_play_no_part_witness :
  (∀ text,
     readme_of (<["notes.txt" := text]> scenario_dir) = readme_of scenario_dir
     ∧ out_stderr (generate_readme (<["notes.txt" := text]> scenario_dir))
       = out_stderr (generate_readme scenario_dir))
  ∧ readme_of (delete "notes.txt" scenario_dir) = readme_of scenario_dir
  ∧ out_stderr (generate_readme (delete "notes.txt" scenario_dir))
    = out_stderr (generate_readme scenario_dir).
Proof.
  apply (other_files_play_no_part scenario_dir "notes.txt").
  by_computation.
Defined.

Lemma line_is_read_directly_witness :
  line_pair padded_line = direct_line padded_line
  ∧ ∀ fm, parse_line fm padded_line =
          match direct_line padded_line with
          | Some (k, v) => <[k := v]> fm
          | None => fm
          end.
Proof. apply (line_is_read_directly padded_line); by vm_compute. Defined.

Lemma keys_are_words_and_values_are_stripped_witness :
  "k" ≠ "" ∧ Str.all Char.isword "k"
  ∧ Str.strip "v" = "v" ∧ Str.all (Re.accepts Re.Dot) "v".
Proof.
  apply (keys_are_words_and_values_are_stripped padded_opening
           {[ "k" := "v" ]} "k" "v"); by vm_compute.
Defined.

Lemma block_is_parsed_line_by_line_witness :
  parse_front_matter
    (block_file "" ("title: x" :: ["category: y"]) " " "rest")
  = Some (foldl parse_line ∅ ("title: x" :: ["category: y"]))
  ∧ ∀ rest', parse_front_matter
               (block_file "" ("title: x" :: ["category: y"]) " " rest')
             = parse_front_matter
                 (block_file "" ("title: x" :: ["category: y"]) " " "rest").
Proof.
  apply (block_is_parsed_line_by_line "" " " "rest" "t" "itle: x"
           ["category: y"]); try done.
  - repeat constructor.
  - repeat constructor.
  - by repeat constructor.
Defined.

Lemma entry_is_listed_under_its_category_witness :
  ∃ pre post,
    readme_of fruit_dir
    = pre ++ ["### " +:+ "Fruit"; ""]
      ++ (bullet <$> group_of (rendered_groups fruit_dir) "Fruit") ++ post
    ∧ bullet (Entry "Apple" "red" "2.md")
        ∈ bullet <$> group_of (rendered_groups fruit_dir) "Fruit"
    ∧ (post = [] ∨ ∃ post', post = "" :: post').
Proof.
  apply (entry_is_listed_under_its_category fruit_dir "Fruit"
           (Entry "Apple" "red" "2.md")).
  by_computation.
Defined.

Lemma plan_file_is_listed_witness :
  Entry "Go Internals" "Deep dive" "a.md"
    ∈ group_of (rendered_groups scenario_dir) "Languages & Paradigms"
  ∧ bullet (Entry "Go Internals" "Deep dive" "a.md") ∈ readme_of scenario_dir
  ∧ ("### " +:+ "Languages & Paradigms") ∈ readme_of scenario_dir
  ∧ diagnostic scenario_dir "a.md" = None.
Proof.
  apply (plan_file_is_listed scenario_dir "a.md" "" ""
           ("# Go Internals" +:+ Str.LF) "t"
           ("itle: " +:+ Str.DQUOTE +:+ "Go Internals" +:+ Str.DQUOTE)
           (tail scenario_lines));
    try done; try (by vm_compute).
  - split; by_computation.
  - repeat constructor.
  - repeat constructor.
  - by repeat constructor.
Defined.

Lemma line_endings_do_not_matter_witness :
  read (<["a.md" := crlf padded_opening]> scenario_dir) "a.md"
  = padded_opening
  ∧ readme_of (<["a.md" := crlf padded_opening]> scenario_dir)
    = readme_of (<["a.md" := padded_opening]> scenario_dir)
  ∧ out_stderr (generate_readme (<["a.md" := crlf padded_opening]> scenario_dir))
    = out_stderr (generate_readme (<["a.md" := padded_opening]> scenario_dir)).
Proof.
  apply (line_endings_do_not_matter scenario_dir "a.md" padded_opening).
  by vm_compute.
Defined.

